(** * A delayed, retryable task queue on a Redis sorted set

    Shallow embedding of [taskqueue/task_queue.go].  The Go code calls
    out of the package to the Redis client (interface [Redis]: [ZAdd],
    [Del], [EvalSha]), to the clock, to the generator of identifiers, to
    the logger and to the handler that the user supplies, and it waits on
    the ticker and on the cancellation of its context.  Each of these is
    a command of a small free monad [Prog]; a run of a program against an
    arbitrary environment yields the program's result together with the
    trace of the calls it made and the answers it got.  The handler is
    user code: it returns, or it panics, and the package recovers from no
    panic. *)

From Stdlib Require Import ZArith String Ascii List Lia.
From Stdlib Require Import DecimalString DecimalPos DecimalZ.
From stdpp Require Import base option list gmap strings.

Local Open Scope string_scope.
Local Open Scope list_scope.
Local Open Scope Z_scope.

(** ** Machine integers and time *)

(** [time.Duration] is a 64-bit signed integer, and so is Go's [int] on
    the 64-bit platforms a Redis client runs on; arithmetic wraps around
    silently. *)
Definition min_int64 : Z := - 2 ^ 63.
Definition max_int64 : Z := 2 ^ 63 - 1.

Definition is_int64 (z : Z) : Prop := min_int64 <= z <= max_int64.

Definition wrap64 (z : Z) : Z := (z + 2 ^ 63) mod 2 ^ 64 - 2 ^ 63.

Definition add64 (a b : Z) : Z := wrap64 (a + b).
Definition mul64 (a b : Z) : Z := wrap64 (a * b).

(** [float64(n)] for an integer [n]: the nearest number with a
    significand of 53 bits, a tie going to the even significand.  The
    result is an integer again; it is [n] itself as long as [n] is at
    most [2^53] in magnitude. *)
Definition float64 (n : Z) : Z :=
  let a := Z.abs n in
  let e := Z.log2 a - 52 in
  if e <=? 0 then n
  else
    let q := a / 2 ^ e in
    let r := a mod 2 ^ e in
    let half := 2 ^ (e - 1) in
    let q' := if (r <? half) || ((r =? half) && Z.even q) then q else q + 1 in
    Z.sgn n * (q' * 2 ^ e).

(** [time.Duration]: a number of nanoseconds. *)
Definition Duration : Type := Z.
Definition time_Second : Duration := 1000000000.

(** [time.Time], as the number of nanoseconds since the Unix epoch.
    [t.Unix()] is the number of whole seconds, [t.Add(d)] moves the
    instant by [d]. *)
Definition Time : Type := Z.
Definition time_Unix (t : Time) : Z := t / 1000000000.
Definition time_Add (t : Time) (d : Duration) : Time := t + d.

(** [uuid.UUID]: 128 bits. *)
Definition UUID : Type := N.
Definition uuid_Nil : UUID := 0%N.

(** Go strings and byte slices are both sequences of bytes. *)
Definition bytes : Type := string.

(** [fmt.Sprintf("%d", n)] and its inverse, the decimal reading that the
    store-side script applies to its argument. *)
Definition Sprintf_d (n : Z) : string := NilZero.string_of_int (Z.to_int n).
Definition tonumber (s : string) : option Z :=
  Z.of_int <$> NilZero.int_of_string s.

(** ** Errors *)

(** An error raised outside the package (Redis client, [encoding/json],
    the user's handler) is opaque to the queue: only its text is kept. *)
Definition foreign : Type := string.

Inductive fmtarg : Type :=
| ArgUUID (u : UUID)
| ArgInt (n : Z).

(** Modelled from the spec: the sentinel errors and the [ErrTaskLost]
    constructor are declared in a file of the package that is not part of
    the sources at hand.  [ErrTaskLost] carries the task id and the
    underlying cause. *)
Inductive error : Type :=
| ErrNoTaskToConsume
| ErrInvalidTaskType
| ErrMaxTaskReties
| ErrTaskLost (taskID : UUID) (err : error)
| Errorf (format : string) (wrapped : error) (args : list fmtarg)
| Foreign (e : foreign).

#[global] Instance fmtarg_eq_dec : EqDecision fmtarg.
Proof. solve_decision. Defined.

#[global] Instance error_eq_dec : EqDecision error.
Proof. solve_decision. Defined.

(** [errors.Is]: walks the chain of [%w]-wrapped errors. *)
Fixpoint errors_Is (err target : error) : bool :=
  if decide (err = target) then true
  else match err with
       | Errorf _ wrapped _ => errors_Is wrapped target
       | _ => false
       end.

(** How a call into user code ends: the function returns, or it
    panics with a value, of which the text is kept. *)
Inductive outcome (A : Type) : Type :=
| Returns (a : A)
| Panics (v : foreign).

Arguments Returns {A} a.
Arguments Panics {A} v.

(** [err.Error()] for an error from outside, wrapped or not: [%w] at
    the end of a format stands for the text of the cause.  The texts of
    the package's own errors are declared outside the sources at hand;
    no call of the package asks for them. *)
Fixpoint error_Error (err : error) : string :=
  match err with
  | Foreign e => e
  | Errorf format wrapped _ =>
      substring 0 (String.length format - 2) format +:+ error_Error wrapped
  | _ => EmptyString
  end.

(** ** Data model *)

Inductive reply : Type :=
| RNil
| RInt (n : Z)
| RString (s : string).

#[global] Instance reply_eq_dec : EqDecision reply.
Proof. solve_decision. Defined.

(** Modelled from the spec: the constant [StatusOK] is declared outside
    the sources at hand; it is the status reply with which the claim
    script signals that no task is due. *)
Definition StatusOK : reply := RString "OK".

Inductive Level : Type := Debug | Info | Warn | Error.

#[global] Instance Level_eq_dec : EqDecision Level.
Proof. solve_decision. Defined.

Inductive SelectCase : Type := TickerC | CtxDone.

Record TaskQueue : Type := mkTaskQueue {
  taskQueueKey : string;
  inProgressTaskKey : string;
  consumeScriptSha : string;
  maxRetries : Z;
  operationTimeout : Duration
}.

Section Model.

(** The payload is an [interface{}]: any value the producer supplies. *)
Context {any : Type}.

Record Task : Type := mkTask {
  ID : UUID;
  Payload : any;
  RetryCount : Z;
  Wait : Duration
}.

(** [redis.Z]: a sorted-set member with its score.  The score is a
    [float64]; the package only ever stores the [float64] of a Unix time
    in seconds there, which is an integer, and the field holds that
    integer. *)
Record redis_Z : Type := mkZ {
  Score : Z;
  Member : Task
}.

(** [encoding/json], on the [Task] struct. *)
Class JSON : Type := {
  json_Marshal : Task -> bytes + foreign;
  json_Unmarshal : bytes -> Task + foreign
}.

(** ** Calls that leave the package *)

Inductive Cmd : Type -> Type :=
| time_Now : Cmd Time
| uuid_New : Cmd UUID
| redis_ZAdd (key : string) (member : redis_Z) : Cmd (option foreign)
| redis_Del (key : string) : Cmd (option foreign)
| redis_EvalSha (sha1 : string) (keys args : list string) : Cmd (reply + foreign)
| call_ConsumeFunc (id : UUID) (payload : any) : Cmd (outcome (option foreign))
| logger (level : Level) (msg : string) (err : option error) : Cmd unit
| select : Cmd SelectCase.

Inductive Prog (A : Type) : Type :=
| Ret (a : A)
| Vis {X : Type} (c : Cmd X) (k : X -> Prog A).

Arguments Ret {A} a.
Arguments Vis {A X} c k.

Fixpoint bind {A B : Type} (p : Prog A) (f : A -> Prog B) : Prog B :=
  match p with
  | Ret a => f a
  | Vis c k => Vis c (fun x => bind (k x) f)
  end.

Definition call {X : Type} (c : Cmd X) : Prog X := Vis c Ret.

Declare Scope prog_scope.
Delimit Scope prog_scope with prog.
Bind Scope prog_scope with Prog.
Notation "x ← p ; q" := (bind p (fun x => q))
  (at level 20, p at level 100, q at level 200, only parsing) : prog_scope.
Notation "p ;; q" := (bind p (fun _ => q))
  (at level 100, q at level 200, only parsing, right associativity) : prog_scope.
Local Open Scope prog_scope.

(** [defer d] in front of [body]: [d] runs once [body] has fixed how
    the function ends, with a result or with a panic on its way to the
    caller. *)
Definition defer {A : Type} (d : Prog unit) (body : Prog A) : Prog A :=
  r ← body; d ;; Ret r.

(** ** The package's functions *)

Context {codec : JSON}.

Definition MarshalBinary (t : Task) : bytes + error :=
  match json_Marshal t with
  | inr err => inr (Errorf "failed to marshal *Task: %w" (Foreign err) [])
  | inl data => inl data
  end.

Definition produceAt (t : TaskQueue) (task : Task) (executeAt : Time)
  : Prog (option error) :=
  err ← call (redis_ZAdd (taskQueueKey t)
                 {| Score := float64 (time_Unix executeAt); Member := task |});
  match err with
  | Some err => Ret (Some (Errorf "failed to zadd message: %w" (Foreign err) []))
  | None => Ret None
  end.

Definition ProduceAt (t : TaskQueue) (payload : any) (executeAt : Time)
  : Prog (UUID * option error) :=
  id ← call uuid_New;
  let task := {| ID := id; Payload := payload; RetryCount := 0; Wait := 0 |} in
  call (logger Debug "producing task %s %v" None) ;;
  err ← produceAt t task executeAt;
  match err with
  | Some err => Ret (uuid_Nil, Some (Errorf "failed to produce task: %w" err []))
  | None => Ret (ID task, None)
  end.

Definition getTask (t : TaskQueue) : Prog (Task + error) :=
  now ← call time_Now;
  let keys := [taskQueueKey t; inProgressTaskKey t] in
  let args := [Sprintf_d (time_Unix now)] in
  call (logger Debug "fetching task to execute" None) ;;
  r ← call (redis_EvalSha (consumeScriptSha t) keys args);
  match r with
  | inr err =>
      Ret (inr (Errorf "failed to execute consume script: %w" (Foreign err) []))
  | inl taskInterface =>
      if decide (taskInterface = StatusOK) then
        call (logger Debug "no tasks to execute" None) ;;
        Ret (inr ErrNoTaskToConsume)
      else
        match taskInterface with
        | RString taskStr =>
            match json_Unmarshal taskStr with
            | inr err =>
                Ret (inr (Errorf "failed to unmarshal task and permanently lost it: %w"
                            (Foreign err) []))
            | inl task => Ret (inl task)
            end
        | _ => Ret (inr (Errorf "failed to cast task: %w" ErrInvalidTaskType []))
        end
  end.

(** The backoff of [produceRetry]: one second at first, then doubling. *)
Definition wait (task : Task) : Duration :=
  if 0 <? Wait task then mul64 2 (Wait task) else time_Second.

Definition retryTask (task : Task) : Task :=
  {| ID := ID task;
     Payload := Payload task;
     RetryCount := add64 (RetryCount task) 1;
     Wait := wait task |}.

Definition produceRetry (t : TaskQueue) (task : Task) : Prog (option error) :=
  now ← call time_Now;
  if (0 <=? maxRetries t) && (maxRetries t <=? RetryCount task) then
    Ret (Some (Errorf "%w: %s, %d" ErrMaxTaskReties
                 [ArgUUID (ID task); ArgInt (RetryCount task)]))
  else
    let executeAt := time_Add now (wait task) in
    err ← produceAt t (retryTask task) executeAt;
    match err with
    | Some err => Ret (Some (Errorf "failed to produce retry task: %w" err []))
    | None => Ret None
    end.

Definition removeInProgressTask (t : TaskQueue) (task : Task) : Prog unit :=
  err ← call (redis_Del (inProgressTaskKey t));
  match err with
  | Some err =>
      call (logger Warn
              "failed to delete worker in progress task, might duplicate if worker restart now"
              (Some (Foreign err)))
  | None => Ret tt
  end.

(** The handler is called with no [recover] around it: when it panics,
    the deferred call runs and the panic leaves [consume]. *)
Definition consume (t : TaskQueue) : Prog (outcome (option error)) :=
  r ← getTask t;
  match r with
  | inr err =>
      if errors_Is err ErrNoTaskToConsume then Ret (Returns None)
      else Ret (Returns (Some (Errorf "failed to get task: %w" err [])))
  | inl task =>
      defer (removeInProgressTask t task)
        (call (logger Debug "consuming task" None) ;;
         err ← call (call_ConsumeFunc (ID task) (Payload task));
         match err with
         | Panics v => Ret (Panics v)
         | Returns (Some err) =>
             call (logger Debug "failed to consume, retrying after backoff"
                     (Some (Foreign err))) ;;
             retryErr ← produceRetry t task;
             match retryErr with
             | Some retryErr =>
                 Ret (Returns (Some (ErrTaskLost (ID task)
                   (Errorf "failed to run consume func and failed to enqueue it for retry: %w"
                      retryErr []))))
             | None =>
                 Ret (Returns
                   (Some (Errorf "failed to run consume func: %w" (Foreign err) [])))
             end
         | Returns None =>
             call (logger Debug "successfully consumed task" None) ;;
             Ret (Returns None)
         end)
  end.

(** [Consume] loops for ever; [fuel] bounds the number of times the
    [select] statement is reached.  [Some (Returns tt)]: the function
    returned; [Some (Panics v)]: a panic of the handler has left it;
    [None]: it is still looping when the fuel runs out. *)
Fixpoint Consume (fuel : nat) (t : TaskQueue) : Prog (option (outcome unit)) :=
  match fuel with
  | O => Ret None
  | S fuel' =>
      c ← call select;
      match c with
      | TickerC =>
          call (logger Info "consuming task" None) ;;
          err ← consume t;
          match err with
          | Panics v => Ret (Some (Panics v))
          | Returns err =>
              match err with
              | Some err =>
                  call (logger Error "failed to call consume function" (Some err))
              | None => Ret tt
              end ;;
              Consume fuel' t
          end
      | CtxDone =>
          call (logger Info "stopping" None) ;;
          Ret (Some (Returns tt))
      end
  end.

(** ** Running a program *)

(** One call with the answer it got. *)
Inductive Call : Type :=
| CNow (now : Time)
| CUuid (id : UUID)
| CZAdd (key : string) (member : redis_Z) (err : option foreign)
| CDel (key : string) (err : option foreign)
| CEvalSha (sha1 : string) (keys args : list string) (r : reply + foreign)
| CConsumeFunc (id : UUID) (payload : any) (err : outcome (option foreign))
| CLog (level : Level) (msg : string) (err : option error)
| CSelect (c : SelectCase).

Definition observe {X : Type} (c : Cmd X) : X -> Call :=
  match c in Cmd X0 return X0 -> Call with
  | time_Now => CNow
  | uuid_New => CUuid
  | redis_ZAdd key member => CZAdd key member
  | redis_Del key => CDel key
  | redis_EvalSha sha1 keys args => CEvalSha sha1 keys args
  | call_ConsumeFunc id payload => CConsumeFunc id payload
  | logger level msg err => fun _ => CLog level msg err
  | select => CSelect
  end.

(** An environment answers every command, on a state of its own. *)
Definition Env (W : Type) : Type := forall X : Type, Cmd X -> W -> X * W.

Fixpoint exec {W A : Type} (env : Env W) (p : Prog A) (w : W)
  : A * W * list Call :=
  match p with
  | Ret a => (a, w, [])
  | Vis c k =>
      let '(x, w1) := env _ c w in
      let '(a, w2, tr) := exec env (k x) w1 in
      (a, w2, observe c x :: tr)
  end.

Definition result {W A : Type} (r : A * W * list Call) : A := r.1.1.
Definition final {W A : Type} (r : A * W * list Call) : W := r.1.2.
Definition trace {W A : Type} (r : A * W * list Call) : list Call := r.2.

(** What a trace did to the store and to the handler. *)
Definition is_ZAdd (c : Call) : bool :=
  match c with CZAdd _ _ _ => true | _ => false end.
Definition is_Del (c : Call) : bool :=
  match c with CDel _ _ => true | _ => false end.
Definition is_ConsumeFunc (c : Call) : bool :=
  match c with CConsumeFunc _ _ _ => true | _ => false end.
Definition is_Select (c : Call) : bool :=
  match c with CSelect _ => true | _ => false end.
Definition is_Panic (c : Call) : bool :=
  match c with CConsumeFunc _ _ (Panics _) => true | _ => false end.

(** ** An in-memory store *)

(** Modelled from the spec: the store the queue runs against is an
    external collaborator; this is the in-memory double of its capability
    surface (section 6 of the specification): a key space whose keys hold
    either a string or a sorted set, a sorted set being a list of scored
    members in which a member occurs once. *)
Inductive rvalue : Type :=
| VString (s : bytes)
| VZSet (z : list (Z * bytes)).

(** Everything the environment decides: the clock, the identifiers, the
    faults of the store, how the user's handler ends and which case
    of the [select] fires, each as a function of the number of calls
    answered so far. *)
Record Oracle : Type := mkOracle {
  now_at : nat -> Time;
  uuid_at : nat -> UUID;
  fault_at : nat -> option foreign;
  handler_at : nat -> UUID -> any -> outcome (option foreign);
  select_at : nat -> SelectCase
}.

Record World : Type := mkWorld {
  keyspace : gmap string rvalue;
  script : string;
  oracle : Oracle;
  steps : nat;
  logs : list (Level * string * option error)
}.

Definition tick (w : World) : World :=
  {| keyspace := keyspace w; script := script w; oracle := oracle w;
     steps := S (steps w); logs := logs w |}.

Definition with_keyspace (ks : gmap string rvalue) (w : World) : World :=
  {| keyspace := ks; script := script w; oracle := oracle w;
     steps := steps w; logs := logs w |}.

Definition with_log (l : Level * string * option error) (w : World) : World :=
  {| keyspace := keyspace w; script := script w; oracle := oracle w;
     steps := steps w; logs := logs w ++ [l] |}.

(** [ZADD]: the member is added, or its score replaced. *)
Definition zadd (score : Z) (member : bytes) (z : list (Z * bytes))
  : list (Z * bytes) :=
  (score, member) :: filter (fun e => e.2 <> member) z.

Definition zrem (member : bytes) (z : list (Z * bytes)) : list (Z * bytes) :=
  filter (fun e => e.2 <> member) z.

(** The entry of lowest score among those with a score of at most [now];
    among equal scores the store's own order decides, here the order of
    the list. *)
Fixpoint lowest_due (now : Z) (z : list (Z * bytes)) : option (Z * bytes) :=
  match z with
  | [] => None
  | e :: z' =>
      match lowest_due now z' with
      | Some e' =>
          if (e.1 <=? now) && (e.1 <=? e'.1) then Some e else Some e'
      | None => if e.1 <=? now then Some e else None
      end
  end.

(** Modelled from the spec: the claim script [consume.lua] is loaded from
    a file that is not part of the sources at hand.  Section 4.3 of the
    specification: given the schedule key, the in-progress key and the
    current time, find the entry of lowest score that is due; if there is
    none answer the "no task" status, else remove the entry from the
    schedule, record it under the in-progress key and answer its bytes,
    all in one indivisible step. *)
Definition consume_lua (keys args : list string) (ks : gmap string rvalue)
  : (reply + foreign) * gmap string rvalue :=
  match keys, args with
  | [scheduleKey; inProgressKey], [nowTimestamp] =>
      match tonumber nowTimestamp with
      | None => (inr "ERR value is not an integer", ks)
      | Some now =>
          match ks !! scheduleKey with
          | None => (inl StatusOK, ks)
          | Some (VString _) => (inr "WRONGTYPE", ks)
          | Some (VZSet z) =>
              match lowest_due now z with
              | None => (inl StatusOK, ks)
              | Some (score, member) =>
                  (inl (RString member),
                   <[inProgressKey := VString member]>
                     (<[scheduleKey := VZSet (zrem member z)]> ks))
              end
          end
      end
  | _, _ => (inr "ERR wrong number of arguments", ks)
  end.

(** The Redis client hands the member of a [ZAdd] to [MarshalBinary]
    before it sends it, and returns the error of [MarshalBinary] as it
    is. *)
Definition mem_ZAdd (key : string) (m : redis_Z) (ks : gmap string rvalue)
  : option foreign * gmap string rvalue :=
  match MarshalBinary (Member m) with
  | inr err => (Some (error_Error err), ks)
  | inl data =>
      match ks !! key with
      | None => (None, <[key := VZSet [(Score m, data)]]> ks)
      | Some (VZSet z) => (None, <[key := VZSet (zadd (Score m) data z)]> ks)
      | Some (VString _) => (Some "WRONGTYPE", ks)
      end
  end.

(** A store call that the oracle makes fail leaves the key space as it
    was. *)
Definition mem_env : Env World :=
  fun X c =>
    match c in Cmd X0 return World -> X0 * World with
    | time_Now => fun w => (now_at (oracle w) (steps w), tick w)
    | uuid_New => fun w => (uuid_at (oracle w) (steps w), tick w)
    | redis_ZAdd key m => fun w =>
        match fault_at (oracle w) (steps w) with
        | Some e => (Some e, tick w)
        | None =>
            let '(r, ks) := mem_ZAdd key m (keyspace w) in
            (r, tick (with_keyspace ks w))
        end
    | redis_Del key => fun w =>
        match fault_at (oracle w) (steps w) with
        | Some e => (Some e, tick w)
        | None => (None, tick (with_keyspace (delete key (keyspace w)) w))
        end
    | redis_EvalSha sha1 keys args => fun w =>
        match fault_at (oracle w) (steps w) with
        | Some e => (inr e, tick w)
        | None =>
            if decide (sha1 = script w) then
              let '(r, ks) := consume_lua keys args (keyspace w) in
              (r, tick (with_keyspace ks w))
            else (inr "NOSCRIPT", tick w)
        end
    | call_ConsumeFunc id payload => fun w =>
        (handler_at (oracle w) (steps w) id payload, tick w)
    | logger level msg err => fun w => (tt, tick (with_log (level, msg, err) w))
    | select => fun w => (select_at (oracle w) (steps w), tick w)
    end.

(** ** Workers side by side *)

(** Several workers, each in the middle of its own program, share one
    environment.  A schedule names, step after step, the worker that
    makes its next call; a call is answered in one piece, as Redis
    answers a command or a script. *)
Definition step_thread {W A : Type} (env : Env W) (p : Prog A) (w : W)
  : Prog A * W :=
  match p with
  | Ret a => (Ret a, w)
  | Vis c k => let '(x, w1) := env _ c w in (k x, w1)
  end.

Fixpoint run_pool {W A : Type} (env : Env W) (sched : list nat)
  (pool : list (Prog A)) (w : W) : list (Prog A) * W :=
  match sched with
  | [] => (pool, w)
  | i :: sched' =>
      match pool !! i with
      | None => run_pool env sched' pool w
      | Some p =>
          let '(p', w1) := step_thread env p w in
          run_pool env sched' (<[i := p']> pool) w1
      end
  end.

Definition finished {A : Type} (p : Prog A) : option A :=
  match p with
  | Ret a => Some a
  | Vis _ _ => None
  end.

(** ** Vocabulary of the statements *)

(** The schedule held under a key: empty when the key is absent. *)
Definition schedule_of (ks : gmap string rvalue) (key : string)
  : list (Z * bytes) :=
  match ks !! key with
  | Some (VZSet z) => z
  | _ => []
  end.


(** The task has used up its retries. *)
Definition exceeded (t : TaskQueue) (task : Task) : Prop :=
  0 <= maxRetries t /\ maxRetries t <= RetryCount task.

(** The outcome is the error of a task that ran out of retries. *)
Definition is_MaxRetries (r : option error) : bool :=
  match r with
  | Some e => errors_Is e ErrMaxTaskReties
  | None => false
  end.

(** The task as it stands after [n] failures in a row, each of them
    rescheduled. *)
Definition lifetime (task : Task) (n : nat) : Task :=
  Nat.iter n retryTask task.

(** What [getTask] makes of the answer to its [EvalSha]. *)
Definition claimed (r : reply + foreign) : Task + error :=
  match r with
  | inr e => inr (Errorf "failed to execute consume script: %w" (Foreign e) [])
  | inl taskInterface =>
      if decide (taskInterface = StatusOK) then inr ErrNoTaskToConsume
      else
        match taskInterface with
        | RString taskStr =>
            match json_Unmarshal taskStr with
            | inr e =>
                inr (Errorf "failed to unmarshal task and permanently lost it: %w"
                       (Foreign e) [])
            | inl task => inl task
            end
        | _ => inr (Errorf "failed to cast task: %w" ErrInvalidTaskType [])
        end
  end.

(** The calls of one [getTask]. *)
Definition fetching (t : TaskQueue) (now : Time) (r : reply + foreign)
  : list Call :=
  [CNow now; CLog Debug "fetching task to execute" None;
   CEvalSha (consumeScriptSha t) [taskQueueKey t; inProgressTaskKey t]
     [Sprintf_d (time_Unix now)] r]
  ++ (if decide (r = inl StatusOK)
      then [CLog Debug "no tasks to execute" None] else []).

(** The calls of one [removeInProgressTask]: the [Del], and a warning
    when it failed. *)
Definition clearing (t : TaskQueue) (derr : option foreign) : list Call :=
  CDel (inProgressTaskKey t) derr ::
  match derr with
  | Some e =>
      [CLog Warn
         "failed to delete worker in progress task, might duplicate if worker restart now"
         (Some (Foreign e))]
  | None => []
  end.

(** The runs of [consume]: the calls made and how the function ends,
    case by case. *)
Inductive consume_run (t : TaskQueue)
  : list Call -> outcome (option error) -> Prop :=
| run_no_task now r err :
    claimed r = inr err ->
    consume_run t (fetching t now r)
      (Returns (if errors_Is err ErrNoTaskToConsume then None
                else Some (Errorf "failed to get task: %w" err [])))
| run_success now r task derr :
    claimed r = inl task ->
    consume_run t
      (fetching t now r
       ++ [CLog Debug "consuming task" None;
           CConsumeFunc (ID task) (Payload task) (Returns None);
           CLog Debug "successfully consumed task" None]
       ++ clearing t derr)
      (Returns None)
| run_dropped now r task e now' derr :
    claimed r = inl task ->
    exceeded t task ->
    consume_run t
      (fetching t now r
       ++ [CLog Debug "consuming task" None;
           CConsumeFunc (ID task) (Payload task) (Returns (Some e));
           CLog Debug "failed to consume, retrying after backoff"
             (Some (Foreign e));
           CNow now']
       ++ clearing t derr)
      (Returns (Some (ErrTaskLost (ID task)
         (Errorf "failed to run consume func and failed to enqueue it for retry: %w"
            (Errorf "%w: %s, %d" ErrMaxTaskReties
               [ArgUUID (ID task); ArgInt (RetryCount task)]) []))))
| run_retried now r task e now' zerr derr :
    claimed r = inl task ->
    ~ exceeded t task ->
    consume_run t
      (fetching t now r
       ++ [CLog Debug "consuming task" None;
           CConsumeFunc (ID task) (Payload task) (Returns (Some e));
           CLog Debug "failed to consume, retrying after backoff"
             (Some (Foreign e));
           CNow now';
           CZAdd (taskQueueKey t)
             {| Score := float64 (time_Unix (time_Add now' (wait task)));
                Member := retryTask task |} zerr]
       ++ clearing t derr)
      (Returns
         match zerr with
         | Some ze =>
             Some (ErrTaskLost (ID task)
               (Errorf "failed to run consume func and failed to enqueue it for retry: %w"
                  (Errorf "failed to produce retry task: %w"
                     (Errorf "failed to zadd message: %w" (Foreign ze) []) []) []))
         | None => Some (Errorf "failed to run consume func: %w" (Foreign e) [])
         end)
| run_panicked now r task v derr :
    claimed r = inl task ->
    consume_run t
      (fetching t now r
       ++ [CLog Debug "consuming task" None;
           CConsumeFunc (ID task) (Payload task) (Panics v)]
       ++ clearing t derr)
      (Panics v).

(** The error that [Consume] logs after a tick. *)
Definition logged (res : option error) : list Call :=
  match res with
  | Some err => [CLog Error "failed to call consume function" (Some err)]
  | None => []
  end.

(** The runs of [Consume] on a given fuel: tick after tick, each a run
    of [consume] followed by the log of its error, up to the cancellation,
    to a panic that leaves a tick, or to the end of the fuel. *)
Inductive Consume_run (t : TaskQueue)
  : nat -> list Call -> option (outcome unit) -> Prop :=
| loop_running : Consume_run t O [] None
| loop_stopped fuel :
    Consume_run t (S fuel)
      [CSelect CtxDone; CLog Info "stopping" None] (Some (Returns tt))
| loop_tick fuel tr res rest out :
    consume_run t tr (Returns res) ->
    Consume_run t fuel rest out ->
    Consume_run t (S fuel)
      (CSelect TickerC :: CLog Info "consuming task" None
       :: tr ++ logged res ++ rest)
      out
| loop_panicked fuel tr v :
    consume_run t tr (Panics v) ->
    Consume_run t (S fuel)
      (CSelect TickerC :: CLog Info "consuming task" None :: tr)
      (Some (Panics v)).

(** The rest of a program once its pending call has got the answer that
    the call [c] records. *)
Definition resume {A : Type} (p : Prog A) (c : Call) : Prog A :=
  match p with
  | Ret a => Ret a
  | Vis cmd k =>
      match cmd in Cmd X return (X -> Prog A) -> Prog A with
      | time_Now => fun k =>
          match c with CNow now => k now | _ => Vis time_Now k end
      | uuid_New => fun k =>
          match c with CUuid id => k id | _ => Vis uuid_New k end
      | redis_ZAdd key m => fun k =>
          match c with CZAdd _ _ r => k r | _ => Vis (redis_ZAdd key m) k end
      | redis_Del key => fun k =>
          match c with CDel _ r => k r | _ => Vis (redis_Del key) k end
      | redis_EvalSha sha1 keys args => fun k =>
          match c with
          | CEvalSha _ _ _ r => k r
          | _ => Vis (redis_EvalSha sha1 keys args) k
          end
      | call_ConsumeFunc id payload => fun k =>
          match c with
          | CConsumeFunc _ _ r => k r
          | _ => Vis (call_ConsumeFunc id payload) k
          end
      | logger level msg err => fun k =>
          match c with CLog _ _ _ => k tt | _ => Vis (logger level msg err) k end
      | select => fun k =>
          match c with CSelect s => k s | _ => Vis select k end
      end k
  end.

(** Where a worker stands in its [getTask].  [waiting]: its script has
    not run yet; the clock, if read, showed a time at which [due] holds.
    [empty_handed]: its script has answered that no task is due. *)
Inductive waiting (due : Time -> Prop) (t : TaskQueue)
  : Prog (Task + error) -> Prop :=
| waiting_start : waiting due t (getTask t)
| waiting_clock now :
    due now -> waiting due t (resume (getTask t) (CNow now))
| waiting_script now :
    due now ->
    waiting due t
      (resume (resume (getTask t) (CNow now))
         (CLog Debug "fetching task to execute" None)).

Inductive empty_handed (t : TaskQueue) : Prog (Task + error) -> Prop :=
| empty_answered now :
    empty_handed t
      (resume
         (resume (resume (getTask t) (CNow now))
            (CLog Debug "fetching task to execute" None))
         (CEvalSha (consumeScriptSha t) [taskQueueKey t; inProgressTaskKey t]
            [Sprintf_d (time_Unix now)] (inl StatusOK)))
| empty_returned : empty_handed t (Ret (inr ErrNoTaskToConsume)).

(** The entries of a schedule that are due at the instant [now]. *)
Definition due_entries (now : Time) (z : list (Z * bytes)) : list (Z * bytes) :=
  filter (fun e => e.1 <= time_Unix now) z.

(** The worker [t] serves the queue under the key [qk] with the script
    of hash [sha], and keeps its in-progress marker under another key. *)
Definition serves (qk sha : string) (t : TaskQueue) : Prop :=
  taskQueueKey t = qk /\ consumeScriptSha t = sha /\ inProgressTaskKey t <> qk.

(** The in-memory store runs the script [sha] under the oracle [o] and
    holds the schedule [z] under the key [qk]. *)
Definition holds (qk sha : string) (o : Oracle) (z : list (Z * bytes))
  (w : World) : Prop :=
  oracle w = o /\ script w = sha /\ keyspace w !! qk = Some (VZSet z).

(** The program returns after at most [n] more calls, whatever the
    answers to them. *)
Fixpoint within {A : Type} (n : nat) (p : Prog A) {struct p} : Prop :=
  match p with
  | Ret _ => True
  | Vis c k =>
      match n with
      | O => False
      | S n' => forall x, within n' (k x)
      end
  end.

(** The number of steps a schedule gives to the worker [j]. *)
Definition turns (j : nat) (sched : list nat) : nat :=
  length (filter (fun i => i = j) sched).

(** The entry [e] is the only one of the schedule [z] that is due at
    the instant [now]. *)
Definition only_due (z : list (Z * bytes)) (e : Z * bytes) (now : Time)
  : Prop :=
  due_entries now z = [e].

(** What a pool of claiming workers looks like while it runs: before
    the claim every worker is waiting; after it one worker holds the task
    and the others are waiting or have been told that nothing is due. *)
Definition before_claim (qk sha : string) (o : Oracle)
  (z : list (Z * bytes)) (e : Z * bytes) (workers : list TaskQueue)
  (pool : list (Prog (Task + error))) (w : World) : Prop :=
  holds qk sha o z w
  /\ forall j t p, workers !! j = Some t -> pool !! j = Some p ->
       waiting (only_due z e) t p.

Definition after_claim (qk sha : string) (o : Oracle)
  (z : list (Z * bytes)) (e : Z * bytes) (task : Task)
  (workers : list TaskQueue) (pool : list (Prog (Task + error)))
  (w : World) : Prop :=
  holds qk sha o (zrem e.2 z) w
  /\ exists i : nat,
       pool !! i = Some (Ret (inl task))
       /\ forall j t p, j <> i -> workers !! j = Some t -> pool !! j = Some p ->
            waiting (only_due z e) t p \/ empty_handed t p.

End Model.

Arguments Task any : clear implicits.
Arguments redis_Z any : clear implicits.
Arguments JSON any : clear implicits.
Arguments Cmd any _ : clear implicits.
Arguments Prog any A : clear implicits.
Arguments Call any : clear implicits.
Arguments Oracle any : clear implicits.
Arguments World any : clear implicits.
Arguments Env any W : clear implicits.
Arguments Ret {any A} a.
Arguments Vis {any A X} c k.

(** ** A codec for the examples about the queue

    The model runs on concrete inputs with this codec for tasks whose
    payload is a string: the four fields in decimal, separated by a bar.
    It plays the part of [encoding/json] in the examples about the queue
    only; no theorem depends on it.  What [encoding/json] itself does on
    a task comes further down. *)
Module Plain.

Fixpoint cut (s : string) : option (string * string) :=
  match s with
  | EmptyString => None
  | String a s' =>
      if Ascii.eqb a "|" then Some (EmptyString, s')
      else match cut s' with
           | Some (l, r) => Some (String a l, r)
           | None => None
           end
  end.

Definition marshal (t : Task string) : bytes + foreign :=
  inl (Sprintf_d (Z.of_N (ID t)) +:+ "|" +:+ Sprintf_d (RetryCount t) +:+ "|"
       +:+ Sprintf_d (Wait t) +:+ "|" +:+ Payload t).

Definition unmarshal (data : bytes) : Task string + foreign :=
  match cut data with
  | Some (id, rest) =>
      match cut rest with
      | Some (retryCount, rest') =>
          match cut rest' with
          | Some (wait, payload) =>
              match tonumber id, tonumber retryCount, tonumber wait with
              | Some id, Some retryCount, Some wait =>
                  inl {| ID := Z.to_N id; Payload := payload;
                         RetryCount := retryCount; Wait := wait |}
              | _, _, _ => inr "invalid character"
              end
          | None => inr "unexpected end of input"
          end
      | None => inr "unexpected end of input"
      end
  | None => inr "unexpected end of input"
  end.

#[global] Instance codec : JSON string :=
  {| json_Marshal := marshal; json_Unmarshal := unmarshal |}.

(** An oracle under which nothing fails: the clock stands at [now], the
    handler succeeds and the ticker fires. *)
Definition calm (now : Time) : Oracle string :=
  {| now_at := fun _ => now;
     uuid_at := fun n => N.of_nat (S n);
     fault_at := fun _ => None;
     handler_at := fun _ _ _ => Returns None;
     select_at := fun _ => TickerC |}.

Definition world (o : Oracle string) (ks : gmap string rvalue) : World string :=
  {| keyspace := ks; script := "sha"; oracle := o; steps := 0; logs := [] |}.

Definition queue (maxRetries : Z) : TaskQueue :=
  {| taskQueueKey := "taskqueue:simple:tasks:dummy-consumer";
     inProgressTaskKey := "taskqueue:simple:workers:worker1:tasks:dummy-consumer";
     consumeScriptSha := "sha";
     maxRetries := maxRetries;
     operationTimeout := 60 * time_Second |}.

End Plain.

(** ** Sample states

    A fresh task, a store in which it has been due since second 5, a
    store whose only entry does not decode, an oracle under which the
    handler fails, one under which it panics, and workers that share the
    queue. *)
Module Sample.

Import Plain.

Definition fresh : Task string :=
  {| ID := 1%N; Payload := "hello"; RetryCount := 0; Wait := 0 |}.

Definition scheduled : gmap string rvalue :=
  {[ taskQueueKey (queue 0) := VZSet [(5, "1|0|0|hello")] ]}.

Definition corrupt : gmap string rvalue :=
  {[ taskQueueKey (queue 0) := VZSet [(5, "not a task")] ]}.

Definition failing (now : Time) : Oracle string :=
  {| now_at := fun _ => now;
     uuid_at := fun n => N.of_nat (S n);
     fault_at := fun _ => None;
     handler_at := fun _ _ _ => Returns (Some "boom");
     select_at := fun _ => TickerC |}.

(** An oracle under which the handler panics, and the context is
    cancelled once the tick is over. *)
Definition panicking (now : Time) : Oracle string :=
  {| now_at := fun _ => now;
     uuid_at := fun n => N.of_nat (S n);
     fault_at := fun _ => None;
     handler_at := fun _ _ _ => Panics "index out of range";
     select_at := fun n => if (n <? 1)%nat then TickerC else CtxDone |}.

Definition worker (n : string) : TaskQueue :=
  {| taskQueueKey := taskQueueKey (queue 0);
     inProgressTaskKey := "taskqueue:simple:workers:" +:+ n +:+ ":tasks:dummy-consumer";
     consumeScriptSha := "sha";
     maxRetries := -1;
     operationTimeout := 60 * time_Second |}.

End Sample.

(** * The rest of the package and the example program *)

(** ** Building a queue *)

(** The fields of [Options] that the package and its example read.  The
    struct is declared in a file that is not among the sources. *)
Record Options : Type := mkOptions {
  QueueKey : string;
  Namespace : string;
  StorageAddress : string;
  WorkerID : string;
  MaxRetries : Z;
  OperationTimeout : Duration
}.

(** The string has no colon in it. *)
Fixpoint no_colon (s : string) : bool :=
  match s with
  | EmptyString => true
  | String a s' => negb (Ascii.eqb a ":") && no_colon s'
  end.

Section Construction.

(** The state of the machine the constructor runs on, with what it calls
    there: the method [setDefaults] of [Options], declared outside the
    sources, the path that [getConsumeScriptPath] computes from the
    location of the running source file, [os.ReadFile], and [ScriptLoad]
    of the Redis client. *)
Context {W : Type}.
Variable setDefaults : Options -> Options.
Variable getConsumeScriptPath : string.
Variable os_ReadFile : string -> W -> (bytes + foreign) * W.
Variable redis_ScriptLoad : string -> W -> (string + foreign) * W.

Definition NewTaskQueue (options : Options) (w : W)
  : (TaskQueue + error) * W :=
  let options := setDefaults options in
  let '(consumeScriptBytes, w1) := os_ReadFile getConsumeScriptPath w in
  match consumeScriptBytes with
  | inr err =>
      (inr (Errorf "failed to read consume script file: %w" (Foreign err) []),
       w1)
  | inl consumeScriptBytes =>
      let '(consumeScriptSHA, w2) := redis_ScriptLoad consumeScriptBytes w1 in
      match consumeScriptSHA with
      | inr err =>
          (inr (Errorf "failed to load consume script file into redis: %w"
                  (Foreign err) []), w2)
      | inl consumeScriptSHA =>
          (inl {| taskQueueKey :=
                    "taskqueue:" +:+ Namespace options +:+ ":tasks:"
                    +:+ QueueKey options;
                  inProgressTaskKey :=
                    "taskqueue:" +:+ Namespace options +:+ ":workers:"
                    +:+ WorkerID options +:+ ":tasks:" +:+ QueueKey options;
                  consumeScriptSha := consumeScriptSHA;
                  maxRetries := MaxRetries options;
                  operationTimeout := OperationTimeout options |}, w2)
      end
  end.

End Construction.

(** ** The example program *)

(** Supplying the handler: every call of the user's function in the
    program is replaced by the function's own program. *)
Fixpoint with_ConsumeFunc {any A : Type}
  (consume : UUID -> any -> Prog any (option foreign)) (p : Prog any A)
  : Prog any A :=
  match p with
  | Ret a => Ret a
  | Vis c k =>
      match c in Cmd _ X
            return (X -> Prog any A) -> (X -> Prog any A) -> Prog any A with
      | call_ConsumeFunc id payload => fun _ k' =>
          bind (consume id payload) (fun err => k' (Returns err))
      | c' => fun k _ => Vis c' k
      end (fun x => with_ConsumeFunc consume (k x))
          (fun x => with_ConsumeFunc consume (k x))
  end.

Module Simple.

Record Payload : Type := mkPayload { Body : string }.

Declare Scope prog_scope.
Notation "x ← p ; q" := (bind p (fun x => q))
  (at level 20, p at level 100, q at level 200, only parsing) : prog_scope.
Notation "p ;; q" := (bind p (fun _ => q))
  (at level 100, q at level 200, only parsing, right associativity) : prog_scope.
Local Open Scope prog_scope.

(** The handler of [runConsumer]: it logs the task and returns [nil]. *)
Definition handler (taskID : UUID) (payload : Payload)
  : Prog Payload (option foreign) :=
  call (logger Info "consumed task %s: %v\n" None) ;;
  Ret None.

(** [runConsumer]; [fuel] bounds the loop of [Consume]. *)
Definition runConsumer {codec : JSON Payload} (fuel : nat)
  (taskQueue : TaskQueue) : Prog Payload (option (outcome unit)) :=
  call (logger Info "consuming task" None) ;;
  with_ConsumeFunc handler (Consume fuel taskQueue).

(** The loop of [runProducer], from the counter [id] on; [fuel] bounds
    the number of times the [select] statement is reached.  The [break]
    of the failure branch leaves the [select], not the loop. *)
Fixpoint produce (fuel : nat) (taskQueue : TaskQueue) (id : Z)
  : Prog Payload (option unit) :=
  match fuel with
  | O => Ret None
  | S fuel' =>
      c ← call select;
      match c with
      | TickerC =>
          call (logger Info "producing task" None) ;;
          now ← call time_Now;
          r ← ProduceAt taskQueue {| Body := Sprintf_d id |} now;
          match r.2 with
          | Some err =>
              call (logger Error "failed to enqueue task" (Some err)) ;;
              produce fuel' taskQueue id
          | None =>
              call (logger Info "enqueued task %s" None) ;;
              produce fuel' taskQueue (add64 id 1)
          end
      | CtxDone =>
          call (logger Info "stopping" None) ;;
          Ret (Some tt)
      end
  end.

Definition runProducer (fuel : nat) (taskQueue : TaskQueue)
  : Prog Payload (option unit) :=
  produce fuel taskQueue 0.

(** The options of [main]. *)
Definition options : Options :=
  {| QueueKey := "dummy-consumer";
     Namespace := "simple";
     StorageAddress := "localhost:6379";
     WorkerID := "worker1";
     MaxRetries := -1;
     OperationTimeout := 60 * time_Second |}.

End Simple.

(** The bodies of the payloads that a run has put into the schedule:
    those of the [ZAdd] calls that the store accepted. *)
Definition enqueued (tr : list (Call Simple.Payload)) : list string :=
  omap (fun c =>
          match c with
          | CZAdd _ m None => Some (Simple.Body (Payload (Member m)))
          | _ => None
          end) tr.

(** The attempts of a run to put a payload into the schedule, accepted
    or not, each with the clock reading that precedes it. *)
Fixpoint attempts (tr : list (Call Simple.Payload))
  : list (Time * redis_Z Simple.Payload) :=
  match tr with
  | CNow now :: tr' =>
      match tr' with
      | CUuid _ :: CLog _ _ _ :: CZAdd _ m _ :: _ => (now, m) :: attempts tr'
      | _ => attempts tr'
      end
  | _ :: tr' => attempts tr'
  | [] => []
  end.

Definition is_Tick {any : Type} (c : Call any) : bool :=
  match c with CSelect TickerC => true | _ => false end.

Definition is_Handled (c : Call Simple.Payload) : bool :=
  match c with
  | CLog Info msg _ => String.eqb msg "consumed task %s: %v\n"
  | _ => false
  end.

(** The calls of a task that [runConsumer]'s handler has been given. *)
Definition handling : list (Call Simple.Payload) :=
  [CLog Debug "consuming task" None;
   CLog Info "consumed task %s: %v\n" None;
   CLog Debug "successfully consumed task" None].

(** ** Counting calls *)

Definition is_EvalSha {any : Type} (c : Call any) : bool :=
  match c with CEvalSha _ _ _ _ => true | _ => false end.

(** The number of calls of one kind in a run. *)
Definition count {any : Type} (f : Call any -> bool) (tr : list (Call any))
  : nat :=
  length (filter (fun c => f c = true) tr).

Definition is_Failure {any : Type} (c : Call any) : bool :=
  match c with CConsumeFunc _ _ (Returns (Some _)) => true | _ => false end.

Definition is_Report {any : Type} (c : Call any) : bool :=
  match c with CLog Error _ (Some _) => true | _ => false end.

(** ** Sample machines *)

Module Mock.

(** A store that answers every script call with [r] and refuses nothing,
    a handler that succeeds and a ticker that fires; the state counts the
    calls. *)
Definition replying {any : Type} (r : reply + foreign) : Env any nat :=
  fun X c =>
    match c in Cmd _ X0 return nat -> X0 * nat with
    | time_Now => fun n => (5000000000, S n)
    | uuid_New => fun n => (N.of_nat n, S n)
    | redis_ZAdd _ _ => fun n => (None, S n)
    | redis_Del _ => fun n => (None, S n)
    | redis_EvalSha _ _ _ => fun n => (r, S n)
    | call_ConsumeFunc _ _ => fun n => (Returns None, S n)
    | logger _ _ _ => fun n => (tt, S n)
    | select => fun n => (TickerC, S n)
    end.

(** A store that refuses the task of every second tick of the example
    producer, which makes seven calls per tick, under a ticker that fires
    until the state has counted [stop] calls. *)
Definition refusing {any : Type} (stop : nat) : Env any nat :=
  fun X c =>
    match c in Cmd _ X0 return nat -> X0 * nat with
    | time_Now => fun n => (5000000000 + Z.of_nat n * 100000000, S n)
    | uuid_New => fun n => (N.of_nat n, S n)
    | redis_ZAdd _ _ => fun n =>
        (if Nat.even (n / 7) then Some "i/o timeout" else None, S n)
    | redis_Del _ => fun n => (None, S n)
    | redis_EvalSha _ _ _ => fun n => (inl StatusOK, S n)
    | call_ConsumeFunc _ _ => fun n => (Returns None, S n)
    | logger _ _ _ => fun n => (tt, S n)
    | select => fun n => (if (n <? stop)%nat then TickerC else CtxDone, S n)
    end.

(** A machine on which the script file is there and the store takes it. *)
Definition readFile (path : string) (w : unit) : (bytes + foreign) * unit :=
  (inl "return 'OK'", w).

Definition scriptLoad (src : string) (w : unit) : (string + foreign) * unit :=
  (inl "sha", w).

End Mock.

(** * The serialization of a task

    [MarshalBinary] calls [json.Marshal] on the task and [getTask] calls
    [json.Unmarshal] on the string that the script returns.
    [encoding/json] is Go's standard library, not code of the package:
    what it does on a [Task] is written here after its documentation
    (functions [Marshal] and [Unmarshal]), at the level of the document.
    A payload is [nil], a [bool], an [int], a [float64] that is an
    integer, a [string], a [[]interface{}], a [map[string]interface{}],
    or a struct of exported fields without tags (or a pointer to one,
    which is serialized as the struct is); slices and maps are not
    nil.  The values that [json.Marshal] refuses (channels, functions,
    infinities and the like) are not among them, so that every task
    here is serialized without an error. *)

(** ** Documents and values *)

Local Unset Elimination Schemes.

(** A JSON document: what a JSON text stands for, with the escapes of
    its strings resolved.  A number is an integer here: numbers with a
    fraction are left out. *)
Inductive json : Type :=
| JNull
| JBool (b : bool)
| JNumber (n : Z)
| JString (s : string)
| JArray (l : list json)
| JObject (m : list (string * json)).

(** The Go values that a payload is made of here. *)
Inductive value : Type :=
| GoNil
| GoBool (b : bool)
| GoInt (n : Z)
| GoFloat64 (f : Z)
| GoString (s : string)
| GoSlice (l : list value)
| GoMap (m : list (string * value))
| GoStruct (fields : list (string * value)).

Local Set Elimination Schemes.

(** The number of bytes of the UTF-8 sequence that a string starts with;
    0 when it starts with none. *)
Definition utf8_cont (a : ascii) : bool :=
  ((128 <=? N_of_ascii a) && (N_of_ascii a <=? 191))%N.

Definition utf8_size (s : string) : nat :=
  match s with
  | EmptyString => 0
  | String a s1 =>
      let b := N_of_ascii a in
      if (b <? 128)%N then 1
      else if ((194 <=? b) && (b <=? 223))%N then
        match s1 with
        | String a1 _ => if utf8_cont a1 then 2 else 0
        | _ => 0
        end
      else if ((224 <=? b) && (b <=? 239))%N then
        match s1 with
        | String a1 (String a2 _) =>
            let lo := if (b =? 224)%N then 160%N else 128%N in
            let hi := if (b =? 237)%N then 159%N else 191%N in
            if ((lo <=? N_of_ascii a1) && (N_of_ascii a1 <=? hi))%N
               && utf8_cont a2
            then 3 else 0
        | _ => 0
        end
      else if ((240 <=? b) && (b <=? 244))%N then
        match s1 with
        | String a1 (String a2 (String a3 _)) =>
            let lo := if (b =? 240)%N then 144%N else 128%N in
            let hi := if (b =? 244)%N then 143%N else 191%N in
            if ((lo <=? N_of_ascii a1) && (N_of_ascii a1 <=? hi))%N
               && utf8_cont a2 && utf8_cont a3
            then 4 else 0
        | _ => 0
        end
      else 0
  end%nat.

(** The replacement character U+FFFD, in UTF-8. *)
Definition utf8_RuneError : string :=
  String (ascii_of_N 239) (String (ascii_of_N 191)
    (String (ascii_of_N 189) EmptyString)).

(** The string with every byte that belongs to no UTF-8 sequence
    replaced by U+FFFD; [inside] counts the bytes still to copy of the
    sequence at hand. *)
Fixpoint coerce_utf8 (inside : nat) (s : string) : string :=
  match s with
  | EmptyString => EmptyString
  | String a s' =>
      match inside with
      | S n => String a (coerce_utf8 n s')
      | O =>
          match utf8_size s with
          | O => utf8_RuneError +:+ coerce_utf8 O s'
          | S n => String a (coerce_utf8 n s')
          end
      end
  end.

Definition ToValidUTF8 (s : string) : string := coerce_utf8 O s.



(** A [map[string]interface{}] is kept as the list of its entries in the
    order of their keys.  An entry is added unless its key is there
    already. *)
Fixpoint map_add (k : string) (v : value) (m : list (string * value))
  : list (string * value) :=
  match m with
  | [] => [(k, v)]
  | (k', v') :: m' =>
      if String.ltb k k' then (k, v) :: m
      else if String.eqb k k' then m
      else (k', v') :: map_add k v m'
  end.

(** [json.Marshal] on a payload. *)
Fixpoint marshal_value (v : value) : json :=
  match v with
  | GoNil => JNull
  | GoBool b => JBool b
  | GoInt n => JNumber n
  | GoFloat64 f => JNumber f
  | GoString s => JString (ToValidUTF8 s)
  | GoSlice l => JArray (map marshal_value l)
  | GoMap m =>
      JObject (map (fun e => (ToValidUTF8 e.1, marshal_value e.2)) m)
  | GoStruct fields =>
      JObject (map (fun e => (e.1, marshal_value e.2)) fields)
  end.

(** [json.Unmarshal] into an [interface{}]. *)
Fixpoint unmarshal_any (j : json) : value + foreign :=
  match j with
  | JNull => inl GoNil
  | JBool b => inl (GoBool b)
  | JNumber n =>
      if Z.abs (float64 n) <? 2 ^ 1024 then inl (GoFloat64 (float64 n))
      else inr "json: cannot unmarshal number into Go value of type float64"
  | JString s => inl (GoString s)
  | JArray l =>
      match
        (fix elements (l : list json) : list value + foreign :=
           match l with
           | [] => inl []
           | j :: l' =>
               match unmarshal_any j, elements l' with
               | inl v, inl vs => inl (v :: vs)
               | inr e, _ => inr e
               | _, inr e => inr e
               end
           end) l
      with
      | inl vs => inl (GoSlice vs)
      | inr e => inr e
      end
  | JObject m =>
      match
        (fix entries (m : list (string * json))
           : list (string * value) + foreign :=
           match m with
           | [] => inl []
           | (k, j) :: m' =>
               match unmarshal_any j, entries m' with
               | inl v, inl vs => inl (map_add k v vs)
               | inr e, _ => inr e
               | _, inr e => inr e
               end
           end) m
      with
      | inl vs => inl (GoMap vs)
      | inr e => inr e
      end
  end.


(** The name of a JSON key with its ASCII letters in lower case: a key
    selects the field whose name it is up to the case of the letters.
    The letters [k] and [s], which [encoding/json] folds with two
    characters outside ASCII as well, are in none of the four names of a
    [Task]'s fields. *)
Definition fold_ascii (a : ascii) : ascii :=
  let n := N_of_ascii a in
  if ((65 <=? n) && (n <=? 90))%N then ascii_of_N (n + 32) else a.

Fixpoint fold_name (s : string) : string :=
  match s with
  | EmptyString => EmptyString
  | String a s' => String (fold_ascii a) (fold_name s')
  end.

Definition selects (key field : string) : bool :=
  String.eqb (fold_name key) (fold_name field).

(** [task := new(Task)]. *)
Definition zero_Task : Task value :=
  {| ID := uuid_Nil; Payload := GoNil; RetryCount := 0; Wait := 0 |}.

(** A JSON value stored into a field of type [int] or [time.Duration]. *)
Definition store_int (j : json) (old : Z) : Z + foreign :=
  match j with
  | JNull => inl old
  | JNumber n =>
      if (min_int64 <=? n) && (n <=? max_int64) then inl n
      else inr "json: cannot unmarshal number into Go struct field of type int"
  | _ => inr "json: cannot unmarshal into Go struct field of type int"
  end.

Section Encoding.

(** The syntax of JSON is left to the library: a document is printed,
    and a text is read, by two functions of which nothing is said here.
    The same holds of the text of an identifier, [uuid.UUID.MarshalText]
    and [UnmarshalText]. *)
Variable json_print : json -> bytes.
Variable json_parse : bytes -> json + foreign.
Variable uuid_MarshalText : UUID -> string.
Variable uuid_UnmarshalText : string -> UUID + foreign.

(** The document of a task: the exported fields under their names, in
    the order of their declaration. *)
Definition marshal_Task (t : Task value) : json :=
  JObject [("ID", JString (uuid_MarshalText (ID t)));
           ("Payload", marshal_value (Payload t));
           ("RetryCount", JNumber (RetryCount t));
           ("Wait", JNumber (Wait t))].

(** One member of a JSON object stored into a task. *)
Definition store_field (t : Task value) (key : string) (j : json)
  : Task value + foreign :=
  if selects key "ID" then
    match j with
    | JNull => inl t
    | JString s =>
        match uuid_UnmarshalText s with
        | inl id =>
            inl {| ID := id; Payload := Payload t;
                   RetryCount := RetryCount t; Wait := Wait t |}
        | inr e => inr e
        end
    | _ => inr "json: cannot unmarshal into Go struct field Task.ID of type uuid.UUID"
    end
  else if selects key "Payload" then
    match unmarshal_any j with
    | inl v =>
        inl {| ID := ID t; Payload := v;
               RetryCount := RetryCount t; Wait := Wait t |}
    | inr e => inr e
    end
  else if selects key "RetryCount" then
    match store_int j (RetryCount t) with
    | inl n =>
        inl {| ID := ID t; Payload := Payload t;
               RetryCount := n; Wait := Wait t |}
    | inr e => inr e
    end
  else if selects key "Wait" then
    match store_int j (Wait t) with
    | inl n =>
        inl {| ID := ID t; Payload := Payload t;
               RetryCount := RetryCount t; Wait := n |}
    | inr e => inr e
    end
  else inl t.

(** The members of an object stored one after the other: a later member
    overwrites what an earlier one has stored. *)
Fixpoint store_fields (t : Task value) (m : list (string * json))
  : Task value + foreign :=
  match m with
  | [] => inl t
  | (key, j) :: m' =>
      match store_field t key j with
      | inl t' => store_fields t' m'
      | inr e => inr e
      end
  end.

(** [json.Unmarshal] into a [*Task] that [new] has made. *)
Definition unmarshal_Task (j : json) : Task value + foreign :=
  match j with
  | JNull => inl zero_Task
  | JObject m => store_fields zero_Task m
  | _ => inr "json: cannot unmarshal into Go value of type taskqueue.Task"
  end.

#[local] Instance go_json : JSON value :=
  {| json_Marshal := fun t => inl (json_print (marshal_Task t));
     json_Unmarshal := fun data =>
       match json_parse data with
       | inl j => unmarshal_Task j
       | inr e => inr e
       end |}.

End Encoding.





(** ** Induction on values and on documents *)

Section Induction.

Variable P : value -> Prop.
Hypothesis HNil : P GoNil.
Hypothesis HBool : forall b, P (GoBool b).
Hypothesis HInt : forall n, P (GoInt n).
Hypothesis HFloat64 : forall f, P (GoFloat64 f).
Hypothesis HString : forall s, P (GoString s).
Hypothesis HSlice : forall l, Forall P l -> P (GoSlice l).
Hypothesis HMap : forall m, Forall (fun e => P e.2) m -> P (GoMap m).
Hypothesis HStruct :
  forall fields, Forall (fun e => P e.2) fields -> P (GoStruct fields).


End Induction.

Section JInduction.

Variable P : json -> Prop.
Hypothesis HNull : P JNull.
Hypothesis HBool : forall b, P (JBool b).
Hypothesis HNumber : forall n, P (JNumber n).
Hypothesis HString : forall s, P (JString s).
Hypothesis HArray : forall l, Forall P l -> P (JArray l).
Hypothesis HObject : forall m, Forall (fun e => P e.2) m -> P (JObject m).


End JInduction.

(** The elements of an array and the members of an object, decoded. *)
Definition unmarshal_elements (l : list json) : list value + foreign :=
  (fix elements (l : list json) : list value + foreign :=
     match l with
     | [] => inl []
     | j :: l' =>
         match unmarshal_any j, elements l' with
         | inl v, inl vs => inl (v :: vs)
         | inr e, _ => inr e
         | _, inr e => inr e
         end
     end) l.

Definition unmarshal_entries (m : list (string * json))
  : list (string * value) + foreign :=
  (fix entries (m : list (string * json)) : list (string * value) + foreign :=
     match m with
     | [] => inl []
     | (k, j) :: m' =>
         match unmarshal_any j, entries m' with
         | inl v, inl vs => inl (map_add k v vs)
         | inr e, _ => inr e
         | _, inr e => inr e
         end
     end) m.

Arguments unmarshal_elements : simpl never.
Arguments unmarshal_entries : simpl never.

(** ** A stand-in for the syntax of JSON

    The examples run on this printer and this reader of documents whose
    strings hold no quote and no backslash, and on identifiers written
    as decimal numbers.  No theorem depends on them. *)
Module Text.

Definition quote : ascii := ascii_of_nat 34.

Fixpoint join (l : list string) : string :=
  match l with
  | [] => EmptyString
  | [s] => s
  | s :: l' => s +:+ "," +:+ join l'
  end.

Definition quoted (s : string) : string :=
  String quote (s +:+ String quote EmptyString).

Fixpoint print (j : json) : bytes :=
  match j with
  | JNull => "null"
  | JBool true => "true"
  | JBool false => "false"
  | JNumber n => Sprintf_d n
  | JString s => quoted s
  | JArray l => "[" +:+ join (map print l) +:+ "]"
  | JObject m =>
      "{" +:+ join (map (fun e => quoted e.1 +:+ ":" +:+ print e.2) m) +:+ "}"
  end.

(** The text up to the first character for which [stop] holds, and the
    rest from that character on. *)
Fixpoint span (stop : ascii -> bool) (s : string) : string * string :=
  match s with
  | EmptyString => (EmptyString, EmptyString)
  | String a s' =>
      if stop a then (EmptyString, s)
      else let '(l, r) := span stop s' in (String a l, r)
  end.

Definition is_digit (a : ascii) : bool :=
  ((48 <=? N_of_ascii a) && (N_of_ascii a <=? 57))%N
  || Ascii.eqb a "-".

Definition read_string (s : string) : option (string * string) :=
  match s with
  | String a s' =>
      if Ascii.eqb a quote then
        match span (Ascii.eqb quote) s' with
        | (l, String _ r) => Some (l, r)
        | _ => None
        end
      else None
  | _ => None
  end.

Fixpoint read (fuel : nat) (s : string) : option (json * string) :=
  match fuel with
  | O => None
  | S fuel' =>
      match s with
      | String "n" (String "u" (String "l" (String "l" r))) => Some (JNull, r)
      | String "t" (String "r" (String "u" (String "e" r))) =>
          Some (JBool true, r)
      | String "f" (String "a" (String "l" (String "s" (String "e" r)))) =>
          Some (JBool false, r)
      | String "[" (String "]" r) => Some (JArray [], r)
      | String "[" r =>
          match read_elements fuel' r with
          | Some (l, String "]" r') => Some (JArray l, r')
          | _ => None
          end
      | String "{" (String "}" r) => Some (JObject [], r)
      | String "{" r =>
          match read_members fuel' r with
          | Some (m, String "}" r') => Some (JObject m, r')
          | _ => None
          end
      | String a _ =>
          if Ascii.eqb a quote then
            match read_string s with
            | Some (l, r) => Some (JString l, r)
            | None => None
            end
          else if is_digit a then
            let '(l, r) := span (fun a => negb (is_digit a)) s in
            match tonumber l with
            | Some n => Some (JNumber n, r)
            | None => None
            end
          else None
      | EmptyString => None
      end
  end
with read_elements (fuel : nat) (s : string) : option (list json * string) :=
  match fuel with
  | O => None
  | S fuel' =>
      match read fuel' s with
      | Some (j, String "," r) =>
          match read_elements fuel' r with
          | Some (l, r') => Some (j :: l, r')
          | None => None
          end
      | Some (j, r) => Some ([j], r)
      | None => None
      end
  end
with read_members (fuel : nat) (s : string)
  : option (list (string * json) * string) :=
  match fuel with
  | O => None
  | S fuel' =>
      match read_string s with
      | Some (k, String ":" r) =>
          match read fuel' r with
          | Some (j, String "," r') =>
              match read_members fuel' r' with
              | Some (m, r'') => Some ((k, j) :: m, r'')
              | None => None
              end
          | Some (j, r') => Some ([(k, j)], r')
          | None => None
          end
      | _ => None
      end
  end.

Definition parse (data : bytes) : json + foreign :=
  match read (String.length data) data with
  | Some (j, EmptyString) => inl j
  | _ => inr "invalid character"
  end.

Definition uuid_MarshalText (id : UUID) : string := Sprintf_d (Z.of_N id).

Definition uuid_UnmarshalText (s : string) : UUID + foreign :=
  match tonumber s with
  | Some n => inl (Z.to_N n)
  | None => inr "invalid UUID format"
  end.

#[global] Instance codec : JSON value :=
  go_json print parse uuid_MarshalText uuid_UnmarshalText.

End Text.

(** * Properties *)

Section Proofs.

Context {any : Type} {codec : JSON any}.

Implicit Types (t : TaskQueue) (task : Task any) (now : Time).

(** ** Arithmetic *)

Lemma wrap64_int64 (z : Z) : is_int64 z -> wrap64 z = z.
Proof.
  unfold is_int64, wrap64, min_int64, max_int64. intros Hz.
  rewrite Z.mod_small; lia.
Qed.


Lemma tonumber_Sprintf_d (n : Z) : tonumber (Sprintf_d n) = Some n.
Proof.
  unfold tonumber, Sprintf_d.
  rewrite NilZero.isi.
  - simpl. by rewrite DecimalZ.of_to.
  - destruct n; simpl; try discriminate.
    intros [= H]. by apply DecimalPos.Unsigned.to_uint_nonnil in H.
  - destruct n; simpl; try discriminate.
    intros [= H]. by apply DecimalPos.Unsigned.to_uint_nonnil in H.
Qed.

(** The conversion to [float64] is exact up to [2^53]. *)
Lemma float64_exact (n : Z) : Z.abs n <= 2 ^ 53 -> float64 n = n.
Proof.
  intros Hn. unfold float64.
  destruct (Z.eq_dec (Z.abs n) (2 ^ 53)) as [Heq | Hne].
  - destruct (Z.abs_eq_or_opp n) as [H | H]; rewrite H in Heq.
    + by subst n.
    + assert (n = - 2 ^ 53) as -> by lia. done.
  - assert (Z.log2 (Z.abs n) - 52 <= 0) as He.
    { destruct (Z.eq_dec (Z.abs n) 0) as [-> | H0]; [done |].
      assert (Z.log2 (Z.abs n) < 53); [| lia].
      apply Z.log2_lt_pow2; lia. }
    by apply Z.leb_le in He as ->.
Qed.

(** ** Runs *)

Lemma exec_bind {W A B : Type} (env : Env any W) (p : Prog any A)
  (f : A -> Prog any B) (w : W) :
  exec env (bind p f) w =
  let '(a, w1, tr1) := exec env p w in
  let '(b, w2, tr2) := exec env (f a) w1 in
  (b, w2, tr1 ++ tr2).
Proof.
  revert w. induction p as [a | X c k IH]; intros w; simpl.
  - by destruct (exec env (f a) w) as [[b w2] tr2].
  - destruct (env X c w) as [x w1]. rewrite IH.
    destruct (exec env (k x) w1) as [[a w2] tr1].
    by destruct (exec env (f a) w2) as [[b w3] tr2].
Qed.

(** Answers the next pending call of the run in the goal. *)
Ltac answer :=
  match goal with
  | |- context [?env ?X ?c ?w] =>
      match type of env with
      | Env _ _ => destruct (env X c w) as [? ?] eqn:?
      end
  end.

Ltac run := simpl; repeat (answer; simpl).

(** ** The producer *)

Lemma produceAt_run {W : Type} (env : Env any W) (w : W) t task executeAt :
  exists (zerr : option foreign) (w' : W),
    env _ (redis_ZAdd (taskQueueKey t)
             {| Score := float64 (time_Unix executeAt); Member := task |}) w
    = (zerr, w')
    /\ exec env (produceAt t task executeAt) w =
       (match zerr with
        | Some e => Some (Errorf "failed to zadd message: %w" (Foreign e) [])
        | None => None
        end, w',
        [CZAdd (taskQueueKey t)
           {| Score := float64 (time_Unix executeAt); Member := task |} zerr]).
Proof.
  unfold produceAt, call. run.
  eexists _, _. split; [done |]. by destruct o.
Qed.

Lemma MarshalBinary_inl task (data : bytes) :
  MarshalBinary task = inl data <-> json_Marshal task = inl data.
Proof.
  unfold MarshalBinary. destruct (json_Marshal task); split; congruence.
Qed.

(** C7, as the code has it.  [ProduceAt] builds a task with the
    identifier that [uuid.New] returned, a retry count of 0 and a wait of
    0, and makes exactly one call to the store: the [ZAdd] of that task
    under the queue's key.  The score is the [float64] of the Unix
    seconds of [executeAt]: the seconds themselves as long as they are at
    most [2^53] in magnitude.  When the store accepts the call the result
    is the task's identifier; when the store answers with an error the
    result is the nil identifier with that error, wrapped, and the store
    has not been called again.  On the in-memory store, a call that went
    through has added one entry to the schedule and changed nothing
    else: the bytes that [json.Marshal] gives for the task, under that
    score. *)
Theorem ProduceAt_schedules_one_task :
  (forall (W : Type) (env : Env any W) (w : W) t (payload : any) executeAt,
     let r := exec env (ProduceAt t payload executeAt) w in
     exists (id : UUID) (zerr : option foreign),
       trace r =
         [CUuid id; CLog Debug "producing task %s %v" None;
          CZAdd (taskQueueKey t)
            {| Score := float64 (time_Unix executeAt);
               Member := {| ID := id; Payload := payload;
                            RetryCount := 0; Wait := 0 |} |} zerr]
       /\ result r =
            match zerr with
            | None => (id, None)
            | Some e =>
                (uuid_Nil,
                 Some (Errorf "failed to produce task: %w"
                         (Errorf "failed to zadd message: %w" (Foreign e) []) []))
            end)
  /\ (forall executeAt : Time,
        Z.abs (time_Unix executeAt) <= 2 ^ 53 ->
        float64 (time_Unix executeAt) = time_Unix executeAt)
  /\ (forall (w : World any) t (payload : any) executeAt (id : UUID),
        let r := exec mem_env (ProduceAt t payload executeAt) w in
        let task := {| ID := uuid_at (oracle w) (steps w); Payload := payload;
                       RetryCount := 0; Wait := 0 |} in
        result r = (id, None) ->
        id = ID task
        /\ exists data : bytes,
             json_Marshal task = inl data
             /\ keyspace (final r) =
                <[taskQueueKey t :=
                    VZSet (zadd (float64 (time_Unix executeAt)) data
                             (schedule_of (keyspace w) (taskQueueKey t)))]>
                  (keyspace w)).
Proof.
  split; [| split].
  - intros W env w t payload executeAt r. subst r.
    unfold ProduceAt, produceAt, call. run.
    eexists _, _. split.
    + by destruct o; unfold trace; simpl.
    + by destruct o.
  - intros executeAt. apply float64_exact.
  - intros w t payload executeAt id r task. subst r.
    unfold ProduceAt, produceAt, call, result, final. simpl.
    destruct (fault_at (oracle w) (S (S (steps w)))) as [e |]; simpl; [done |].
    unfold mem_ZAdd, schedule_of. simpl. fold task.
    destruct (MarshalBinary task) as [data | err] eqn:Hm; simpl; [| done].
    apply MarshalBinary_inl in Hm.
    destruct (keyspace w !! taskQueueKey t) as [[s | z] |] eqn:Hk; simpl;
      try done; intros [= <-]; split; eauto.
Qed.

(** ** Retry and backoff *)

Lemma exceeded_test t task :
  (0 <=? maxRetries t) && (maxRetries t <=? RetryCount task) = true
  <-> exceeded t task.
Proof. unfold exceeded. rewrite andb_true_iff, !Z.leb_le. tauto. Qed.

(** The two ways [produceRetry] can go. *)
Lemma produceRetry_run {W : Type} (env : Env any W) (w : W) t task :
  exists (now : Time) (w1 : W),
    env _ time_Now w = (now, w1)
    /\ ((exceeded t task
         /\ exec env (produceRetry t task) w =
            (Some (Errorf "%w: %s, %d" ErrMaxTaskReties
                     [ArgUUID (ID task); ArgInt (RetryCount task)]),
             w1, [CNow now]))
        \/ (~ exceeded t task
            /\ exists (zerr : option foreign) (w2 : W),
                 exec env (produceRetry t task) w =
                 (match zerr with
                  | Some e =>
                      Some (Errorf "failed to produce retry task: %w"
                              (Errorf "failed to zadd message: %w" (Foreign e) [])
                              [])
                  | None => None
                  end, w2,
                  [CNow now;
                   CZAdd (taskQueueKey t)
                     {| Score := float64 (time_Unix (time_Add now (wait task)));
                        Member := retryTask task |} zerr]))).
Proof.
  unfold produceRetry, produceAt, call. simpl.
  destruct (env _ time_Now w) as [now w1] eqn:Hnow.
  exists now, w1. split; [done |].
  destruct ((0 <=? maxRetries t) && (maxRetries t <=? RetryCount task))
    eqn:Hc; simpl.
  - left. by apply exceeded_test in Hc.
  - right. split.
    + intros H%exceeded_test. congruence.
    + destruct (env _ (redis_ZAdd _ _) w1) as [zerr w2]. simpl.
      exists zerr, w2. by destruct zerr.
Qed.

Lemma wait_nonpositive task : Wait task <= 0 -> wait task = time_Second.
Proof.
  intros H. unfold wait. destruct (Z.ltb_spec 0 (Wait task)); [lia | done].
Qed.

Lemma wait_doubles task :
  0 < Wait task -> 2 * Wait task <= max_int64 -> wait task = 2 * Wait task.
Proof.
  intros H1 H2. unfold wait. destruct (Z.ltb_spec 0 (Wait task)); [| lia].
  apply wrap64_int64. unfold is_int64, min_int64, max_int64 in *. lia.
Qed.


Lemma retryCount_increases task :
  is_int64 (RetryCount task) -> RetryCount task < max_int64 ->
  RetryCount (retryTask task) = RetryCount task + 1.
Proof.
  intros H1 H2. simpl. apply wrap64_int64.
  unfold is_int64, min_int64, max_int64 in *. lia.
Qed.


Lemma lifetime_S task n : lifetime task (S n) = retryTask (lifetime task n).
Proof. done. Qed.

Lemma lifetime_ID task n : ID (lifetime task n) = ID task.
Proof. induction n as [| n IH]; [done |]. by rewrite lifetime_S. Qed.

Lemma lifetime_Payload task n : Payload (lifetime task n) = Payload task.
Proof. induction n as [| n IH]; [done |]. by rewrite lifetime_S. Qed.


(** A fresh task that has failed [i] times carries the count [i]. *)
Lemma lifetime_RetryCount task (i : nat) :
  RetryCount task = 0 -> Z.of_nat i <= max_int64 ->
  RetryCount (lifetime task i) = Z.of_nat i.
Proof.
  intros H0. induction i as [| i IH]; intros Hi; [done |].
  rewrite lifetime_S, retryCount_increases.
  - rewrite IH; lia.
  - rewrite IH by lia. unfold is_int64, min_int64, max_int64 in *. lia.
  - rewrite IH; lia.
Qed.

Lemma second_doublings (n : nat) :
  (n <= 33)%nat -> 0 < 2 ^ Z.of_nat n * time_Second <= max_int64.
Proof.
  intros Hn. unfold time_Second, max_int64.
  assert (0 < 2 ^ Z.of_nat n <= 2 ^ 33) as Hpow.
  { split; [apply Z.pow_pos_nonneg; lia |].
    apply Z.pow_le_mono_r; lia. }
  lia.
Qed.

(** A fresh task that has failed [n+1] times waits [2^n] seconds. *)
Lemma lifetime_Wait task (n : nat) :
  Wait task = 0 -> (n <= 33)%nat ->
  Wait (lifetime task (S n)) = 2 ^ Z.of_nat n * time_Second.
Proof.
  intros H0. induction n as [| n IH]; intros Hn.
  - simpl. unfold wait. rewrite H0. done.
  - rewrite lifetime_S. change (Wait (retryTask ?x)) with (wait x).
    specialize (IH ltac:(lia)).
    pose proof (second_doublings n ltac:(lia)) as Hn'.
    pose proof (second_doublings (S n) ltac:(lia)) as HSn.
    rewrite Nat2Z.inj_succ, Z.pow_succ_r in * by lia.
    rewrite wait_doubles; rewrite IH; lia.
Qed.

Lemma errors_Is_max_retries (id : UUID) (n : Z) :
  errors_Is (Errorf "%w: %s, %d" ErrMaxTaskReties [ArgUUID id; ArgInt n])
    ErrMaxTaskReties = true.
Proof. done. Qed.

Lemma produceRetry_is_MaxRetries {W : Type} (env : Env any W) (w : W) t task :
  is_MaxRetries (result (exec env (produceRetry t task) w)) = true
  <-> exceeded t task.
Proof.
  destruct (produceRetry_run env w t task)
    as (now & w1 & _ & [[Hc ->] | [Hc (zerr & w2 & ->)]]).
  - done.
  - unfold result. simpl. split; [| done]. by destruct zerr.
Qed.

(** C2. [produceRetry] fails with the error of exhausted retries exactly
    when the ceiling is not negative and the task's retry count has
    reached it.  With a ceiling of [k], a fresh task that keeps failing
    is rescheduled on its first [k] failures and dropped on failure
    number [k+1], not before.  With a negative ceiling no failure is ever
    answered with that error. *)
Theorem produceRetry_ceiling :
  (forall (W : Type) (env : Env any W) (w : W) t task,
     is_MaxRetries (result (exec env (produceRetry t task) w)) = true
     <-> 0 <= maxRetries t /\ maxRetries t <= RetryCount task)
  /\ (forall (W : Type) (env : Env any W) (w : W) t task (k i : nat),
        maxRetries t = Z.of_nat k -> Z.of_nat k <= max_int64 ->
        RetryCount task = 0 -> (i <= k)%nat ->
        let r := exec env (produceRetry t (lifetime task i)) w in
        (is_MaxRetries (result r) = true <-> i = k)
        /\ ((i < k)%nat ->
            exists (now : Time) (zerr : option foreign),
              trace r =
                [CNow now;
                 CZAdd (taskQueueKey t)
                   {| Score :=
                        float64
                          (time_Unix (time_Add now (Wait (lifetime task (S i)))));
                      Member := lifetime task (S i) |} zerr]))
  /\ (forall (W : Type) (env : Env any W) (w : W) t task,
        maxRetries t < 0 ->
        is_MaxRetries (result (exec env (produceRetry t task) w)) = false).
Proof.
  split; [| split].
  - intros. apply produceRetry_is_MaxRetries.
  - intros W env w t task k i Hk Hmax H0 Hi r. subst r. split.
    + rewrite produceRetry_is_MaxRetries. unfold exceeded.
      rewrite lifetime_RetryCount by lia. lia.
    + intros Hlt.
      destruct (produceRetry_run env w t (lifetime task i))
        as (now & w1 & _ & [[Hc _] | [_ (zerr & w2 & ->)]]).
      * unfold exceeded in Hc. rewrite lifetime_RetryCount in Hc by lia. lia.
      * by exists now, zerr.
  - intros W env w t task Hneg.
    apply not_true_is_false. rewrite produceRetry_is_MaxRetries.
    unfold exceeded. lia.
Qed.

(** C1, as the code has it.  For a task below the retry ceiling
    [produceRetry] hands exactly one task to the store, due at the time
    of the call plus its new wait, in Unix seconds as a [float64].  The
    new wait is one second when the previous wait is zero or negative,
    and twice the previous wait when that is positive and the double fits
    a 64-bit integer; it is [max (1 second) (2 * previous wait)] when the
    previous wait is zero or at least half a second. *)
Theorem produceRetry_backoff (W : Type) (env : Env any W) (w : W) t task :
  maxRetries t < 0 \/ RetryCount task < maxRetries t ->
  exists (now : Time) (zerr : option foreign) (m : redis_Z any),
    trace (exec env (produceRetry t task) w) =
      [CNow now; CZAdd (taskQueueKey t) m zerr]
    /\ Score m = float64 (time_Unix (time_Add now (Wait (Member m))))
    /\ (Wait task <= 0 -> Wait (Member m) = time_Second)
    /\ (0 < Wait task -> 2 * Wait task <= max_int64 ->
        Wait (Member m) = 2 * Wait task)
    /\ (Wait task = 0 \/ time_Second <= 2 * Wait task <= max_int64 ->
        Wait (Member m) = Z.max time_Second (2 * Wait task)).
Proof.
  intros Hbelow.
  destruct (produceRetry_run env w t task)
    as (now & w1 & _ & [[Hc _] | [_ (zerr & w2 & ->)]]).
  { unfold exceeded in Hc. lia. }
  eexists now, zerr, _. split; [done |]. simpl.
  split; [done |]. split; [apply wait_nonpositive |].
  split; [apply wait_doubles |].
  intros [H0 | [H1 H2]].
  - rewrite wait_nonpositive by lia. rewrite H0. done.
  - unfold time_Second in *. rewrite wait_doubles by lia. lia.
Qed.


(** ** One tick of the consumer *)

Lemma getTask_run {W : Type} (env : Env any W) (w : W) t :
  exists (now : Time) (r : reply + foreign) (w' : W),
    exec env (getTask t) w = (claimed r, w', fetching t now r).
Proof.
  unfold getTask, call, fetching, claimed. simpl.
  destruct (env _ time_Now w) as [now w1]. simpl.
  destruct (env _ (logger _ _ _) w1) as [[] w2]. simpl.
  destruct (env _ (redis_EvalSha _ _ _) w2) as [r w3]. simpl.
  exists now, r.
  destruct r as [taskInterface | e]; simpl.
  - destruct (decide (taskInterface = StatusOK)) as [-> | Hne]; simpl.
    + destruct (env _ (logger _ _ _) w3) as [[] w4]. simpl. eauto.
    + destruct (decide (inl taskInterface = inl StatusOK)); [congruence |].
      destruct taskInterface as [| int | taskStr]; simpl; eauto.
      destruct (json_Unmarshal taskStr); simpl; eauto.
  - eauto.
Qed.

Lemma removeInProgressTask_run {W : Type} (env : Env any W) (w : W) t task :
  exists (derr : option foreign) (w' : W),
    exec env (removeInProgressTask t task) w = (tt, w', clearing t derr).
Proof.
  unfold removeInProgressTask, call, clearing. simpl.
  destruct (env _ (redis_Del _) w) as [derr w1]. simpl.
  exists derr. destruct derr as [e |]; simpl; [| eauto].
  destruct (env _ (logger _ _ _) w1) as [[] w2]. simpl. eauto.
Qed.

Lemma defer_run {W A : Type} (env : Env any W) (w : W) t task
  (body : Prog any A) :
  exists (derr : option foreign) (w' : W),
    exec env (defer (removeInProgressTask t task) body) w =
    (result (exec env body w), w',
     trace (exec env body w) ++ clearing t derr).
Proof.
  unfold defer. rewrite exec_bind.
  destruct (exec env body w) as [[a w1] tr1]. rewrite exec_bind.
  destruct (removeInProgressTask_run env w1 t task) as (derr & w2 & ->).
  simpl. rewrite app_nil_r. eauto.
Qed.

(** Every run of [consume] is one of the five of [consume_run]. *)
Lemma consume_runs {W : Type} (env : Env any W) (w : W) t :
  consume_run t (trace (exec env (consume t) w))
    (result (exec env (consume t) w)).
Proof.
  Opaque produceRetry.
  unfold consume. rewrite exec_bind.
  destruct (getTask_run env w t) as (now & r & w1 & ->).
  destruct (claimed r) as [task | err] eqn:Hclaimed.
  - match goal with
    | |- context [defer ?d ?b] =>
        destruct (defer_run env w1 t task b) as (derr & w2 & ->)
    end.
    unfold call. simpl.
    destruct (env _ (logger _ _ _) w1) as [[] w3]. simpl.
    destruct (env _ (call_ConsumeFunc _ _) w3) as [[[e |] | v] w4]; simpl.
    + destruct (env _ (logger _ _ _) w4) as [[] w5]. simpl.
      rewrite exec_bind.
      destruct (produceRetry_run env w5 t task)
        as (now' & w6 & _ & [[Hc ->] | [Hc (zerr & w7 & ->)]]).
      * unfold result, trace. simpl.
        by apply (run_dropped t now r task e now' derr).
      * pose proof (run_retried t now r task e now' zerr derr Hclaimed Hc) as H.
        unfold result, trace. by destruct zerr; simpl.
    + destruct (env _ (logger _ _ _) w4) as [[] w5]. simpl.
      unfold result, trace. simpl.
      by apply (run_success t now r task derr).
    + unfold result, trace. simpl.
      by apply (run_panicked t now r task v derr).
  - pose proof (run_no_task t now r err Hclaimed) as H.
    unfold result, trace.
    destruct (errors_Is err ErrNoTaskToConsume); simpl;
      by rewrite app_nil_r.
  Transparent produceRetry.
Qed.

(** Splits the forms a trace of [consume] can take and reads membership
    in it as a disjunction of equalities. *)
Ltac open_trace :=
  unfold fetching, clearing in *;
  repeat match goal with
         | H : context [decide (?r = inl StatusOK)] |- _ =>
             destruct (decide (r = inl StatusOK))
         | |- context [decide (?r = inl StatusOK)] =>
             destruct (decide (r = inl StatusOK))
         | H : context [match ?d with Some _ => _ | None => _ end] |- _ =>
             is_var d; destruct d
         | |- context [match ?d with Some _ => _ | None => _ end] =>
             is_var d; destruct d
         end;
  simpl in *.

Ltac all_calls :=
  repeat first
    [ apply Forall_nil_2
    | apply Forall_cons_2; [done |]
    | apply Forall_app_2 ].

(** C3, as the code has it.  After a failure of the handler on the task
    that the claim has decoded, [consume] answers with [ErrTaskLost],
    carrying the task's identifier and the cause, exactly when
    [produceRetry] returned an error.  That is so when the retry count
    of the task has reached the ceiling: no reschedule is attempted and
    the cause wraps the error of exhausted retries.  It is so as well
    when the task is below the ceiling and the [ZAdd] of its reschedule
    fails: the cause wraps the store's error.  When the reschedule goes
    through, the result is the plain error of the failed handler. *)
Theorem consume_task_lost (W : Type) (env : Env any W) (w : W) t
  (sha1 : string) (keys args : list string) (answer : reply + foreign)
  (task : Task any) (id : UUID) (payload : any) (herr : foreign) :
  let r := exec env (consume t) w in
  CEvalSha sha1 keys args answer ∈ trace r ->
  claimed answer = inl task ->
  CConsumeFunc id payload (Returns (Some herr)) ∈ trace r ->
  (id = ID task /\ payload = Payload task)
  /\ (exceeded t task ->
      Forall (fun c => is_ZAdd c = false) (trace r)
      /\ result r =
         Returns (Some (ErrTaskLost (ID task)
           (Errorf "failed to run consume func and failed to enqueue it for retry: %w"
              (Errorf "%w: %s, %d" ErrMaxTaskReties
                 [ArgUUID (ID task); ArgInt (RetryCount task)]) []))))
  /\ (~ exceeded t task ->
      exists (now : Time) (zerr : option foreign),
        filter (fun c => is_ZAdd c = true) (trace r) =
          [CZAdd (taskQueueKey t)
             {| Score := float64 (time_Unix (time_Add now (wait task)));
                Member := retryTask task |} zerr]
        /\ result r =
           Returns
             match zerr with
             | Some ze =>
                 Some (ErrTaskLost (ID task)
                   (Errorf "failed to run consume func and failed to enqueue it for retry: %w"
                      (Errorf "failed to produce retry task: %w"
                         (Errorf "failed to zadd message: %w" (Foreign ze) [])
                         []) []))
             | None =>
                 Some (Errorf "failed to run consume func: %w" (Foreign herr) [])
             end)
  /\ ((exists cause, result r = Returns (Some (ErrTaskLost (ID task) cause)))
      <-> exceeded t task
          \/ exists (m : redis_Z any) (ze : foreign),
               CZAdd (taskQueueKey t) m (Some ze) ∈ trace r).
Proof.
  intros r. subst r. pose proof (consume_runs env w t) as Hrun. revert Hrun.
  generalize (trace (exec env (consume t) w))
             (result (exec env (consume t) w)).
  intros tr res Hrun Hin Hclaimed Hcall.
  destruct Hrun as [now r err Hc | now r task' derr Hc
                   | now r task' e now' derr Hc Hex
                   | now r task' e now' zerr derr Hc Hex
                   | now r task' v derr Hc].
  - exfalso. open_trace; set_unfold in Hcall; intuition simplify_eq.
  - exfalso. open_trace; set_unfold in Hcall; intuition simplify_eq.
  - assert (r = answer) as ->
      by (open_trace; set_unfold in Hin; intuition (simplify_eq; eauto)).
    assert (task' = task) as -> by congruence.
    assert (id = ID task /\ payload = Payload task) as [-> ->]
      by (open_trace; set_unfold in Hcall; intuition (simplify_eq; eauto)).
    split; [done |]. split; [| split].
    + intros _. split; [| done]. open_trace; all_calls.
    + done.
    + split; [by left | by eauto].
  - assert (r = answer) as ->
      by (open_trace; set_unfold in Hin; intuition (simplify_eq; eauto)).
    assert (task' = task) as -> by congruence.
    assert (id = ID task /\ payload = Payload task /\ e = herr)
      as (-> & -> & ->)
      by (open_trace; set_unfold in Hcall; intuition (simplify_eq; eauto)).
    split; [done |]. split; [done |]. split.
    + intros _. exists now', zerr. split; [| done].
      open_trace; by repeat (rewrite ?filter_app; simpl).
    + split.
      * intros [cause Hres]. right.
        destruct zerr as [ze |]; [| done].
        exists {| Score := float64 (time_Unix (time_Add now' (wait task)));
                  Member := retryTask task |}, ze.
        open_trace; set_unfold; eauto 10.
      * intros [Hex' | (m & ze & Hz)]; [done |].
        destruct zerr as [ze' |]; [by eauto |].
        exfalso. open_trace; set_unfold in Hz; intuition simplify_eq.
  - exfalso. open_trace; set_unfold in Hcall; intuition simplify_eq.
Qed.

(** On the in-memory store, a run that ends on a [Del] that went through
    leaves the key absent. *)
Lemma mem_last_Del {A : Type} (p : Prog any A) (w : World any)
  (tr : list (Call any)) (key : string) :
  trace (exec mem_env p w) = tr ++ [CDel key None] ->
  keyspace (final (exec mem_env p w)) !! key = None.
Proof.
  revert w tr. induction p as [a | X c k IH]; intros w tr; simpl.
  - unfold trace. simpl. by destruct tr.
  - destruct (mem_env X c w) as [x w1] eqn:Hc.
    destruct (exec mem_env (k x) w1) as [[a w2] tr'] eqn:Hk.
    unfold trace, final. simpl. intros Htr.
    destruct tr as [| c0 tr0]; simplify_eq/=.
    + destruct (k x) as [a' | X' c' k']; simpl in Hk.
      * simplify_eq. destruct c; simplify_eq/=.
        destruct (fault_at (oracle w) (steps w)); simplify_eq/=.
        apply lookup_delete_eq.
      * destruct (mem_env X' c' w1), (exec mem_env (k' _) _) as [[? ?] ?].
        simplify_eq.
    + specialize (IH x w1 tr0). rewrite Hk in IH. by apply IH.
Qed.

Lemma consume_run_calls t (tr : list (Call any))
  (res : outcome (option error)) :
  consume_run t tr res -> Forall (fun c => is_Select c = false) tr.
Proof. intros []; open_trace; all_calls. Qed.

(** C9. Once the handler has been called, the run of [consume] ends
    with the [Del] of the worker's in-progress key, after the handler
    and after the attempt to reschedule, whatever their outcome, a panic
    of the handler included; when that [Del] fails a warning is logged
    and nothing else happens.  How [consume] ends is fixed by the handler
    and the reschedule alone.  On the in-memory store, the key is absent
    after a [Del] that went through. *)
Theorem consume_clears_marker :
  (forall (W : Type) (env : Env any W) (w : W) t,
     let r := exec env (consume t) w in
     Exists (fun c => is_ConsumeFunc c = true) (trace r) ->
     exists (pre mid : list (Call any)) (id : UUID) (payload : any)
            (herr : outcome (option foreign)) (derr : option foreign),
       trace r =
         pre ++ CConsumeFunc id payload herr :: mid
         ++ CDel (inProgressTaskKey t) derr
            :: match derr with
               | Some e =>
                   [CLog Warn
                      "failed to delete worker in progress task, might duplicate if worker restart now"
                      (Some (Foreign e))]
               | None => []
               end
       /\ Forall (fun c => is_Del c = false /\ is_ConsumeFunc c = false)
            (pre ++ mid)
       /\ match herr with
          | Returns None => result r = Returns None
          | Returns (Some e) =>
              (Exists (fun c => exists k m, c = CZAdd k m None) mid ->
               result r =
                 Returns
                   (Some (Errorf "failed to run consume func: %w" (Foreign e) [])))
              /\ (~ Exists (fun c => exists k m, c = CZAdd k m None) mid ->
                  exists cause,
                    result r = Returns (Some (ErrTaskLost id cause)))
          | Panics v => result r = Panics v /\ mid = []
          end)
  /\ (forall (w : World any) t,
        let r := exec mem_env (consume t) w in
        Exists (fun c => is_ConsumeFunc c = true) (trace r) ->
        CDel (inProgressTaskKey t) None ∈ trace r ->
        keyspace (final r) !! inProgressTaskKey t = None).
Proof.
  assert (forall (W : Type) (env : Env any W) (w : W) t,
     let r := exec env (consume t) w in
     Exists (fun c => is_ConsumeFunc c = true) (trace r) ->
     exists (pre mid : list (Call any)) (id : UUID) (payload : any)
            (herr : outcome (option foreign)) (derr : option foreign),
       trace r = pre ++ CConsumeFunc id payload herr :: mid ++ clearing t derr
       /\ Forall (fun c => is_Del c = false /\ is_ConsumeFunc c = false)
            (pre ++ mid)
       /\ match herr with
          | Returns None => result r = Returns None
          | Returns (Some e) =>
              (Exists (fun c => exists k m, c = CZAdd k m None) mid ->
               result r =
                 Returns
                   (Some (Errorf "failed to run consume func: %w" (Foreign e) [])))
              /\ (~ Exists (fun c => exists k m, c = CZAdd k m None) mid ->
                  exists cause,
                    result r = Returns (Some (ErrTaskLost id cause)))
          | Panics v => result r = Panics v /\ mid = []
          end) as Hgen.
  { intros W env w t r. subst r.
    pose proof (consume_runs env w t) as Hrun. revert Hrun.
    generalize (trace (exec env (consume t) w))
               (result (exec env (consume t) w)).
    intros tr res Hrun Hin.
    destruct Hrun as [now r err Hc | now r task derr Hc
                     | now r task e now' derr Hc Hex
                     | now r task e now' zerr derr Hc Hex
                     | now r task v derr Hc].
    - exfalso. apply Exists_exists in Hin as (c & Hin & Hc').
      open_trace; set_unfold in Hin; intuition (simplify_eq; eauto).
    - exists (fetching t now r ++ [CLog Debug "consuming task" None]),
        [CLog Debug "successfully consumed task" None],
        (ID task), (Payload task), (Returns None), derr.
      split; [by rewrite <- !app_assoc |]. split; [| done].
      open_trace; all_calls.
    - exists (fetching t now r ++ [CLog Debug "consuming task" None]),
        [CLog Debug "failed to consume, retrying after backoff"
           (Some (Foreign e)); CNow now'],
        (ID task), (Payload task), (Returns (Some e)), derr.
      split; [by rewrite <- !app_assoc |]. split.
      + open_trace; all_calls.
      + split; [| by eauto].
        intros Hz. apply Exists_exists in Hz as (c & Hz & k & m & ->).
        set_unfold in Hz. intuition simplify_eq.
    - exists (fetching t now r ++ [CLog Debug "consuming task" None]),
        [CLog Debug "failed to consume, retrying after backoff"
           (Some (Foreign e)); CNow now';
         CZAdd (taskQueueKey t)
           {| Score := float64 (time_Unix (time_Add now' (wait task)));
              Member := retryTask task |} zerr],
        (ID task), (Payload task), (Returns (Some e)), derr.
      split; [by rewrite <- !app_assoc |]. split.
      + open_trace; all_calls.
      + destruct zerr as [ze |]; split.
        * intros Hz. apply Exists_exists in Hz as (c & Hz & k & m & ->).
          set_unfold in Hz. intuition simplify_eq.
        * by eauto.
        * done.
        * intros Hz. exfalso. apply Hz.
          do 2 apply Exists_cons_tl. apply Exists_cons_hd. eauto.
    - exists (fetching t now r ++ [CLog Debug "consuming task" None]),
        [], (ID task), (Payload task), (Panics v), derr.
      split; [by rewrite <- !app_assoc |]. split; [| done].
      open_trace; all_calls. }
  split; [exact Hgen |].
  intros w t r Hin Hdel.
  destruct (Hgen _ mem_env w t Hin)
    as (pre & mid & id & payload & herr & derr & Htr & Hcalls & _).
  fold r in Htr.
  assert (derr = None) as ->.
  { rewrite Htr in Hdel. apply Forall_app in Hcalls as [Hpre Hmid].
    rewrite Forall_forall in Hpre, Hmid.
    set_unfold in Hdel.
    destruct Hdel as [Hdel | [Hdel | [Hdel | Hdel]]].
    - by apply Hpre in Hdel as [? ?].
    - done.
    - by apply Hmid in Hdel as [? ?].
    - destruct derr; set_unfold in Hdel; intuition simplify_eq. }
  apply (mem_last_Del _ _ (pre ++ CConsumeFunc id payload herr :: mid)).
  fold r. rewrite Htr. simpl. by rewrite <- app_assoc.
Qed.

(** C10. When the claim script answers bytes that do not decode,
    [consume] returns the decoding error, wrapped, and its run contains
    neither a call of the handler nor a [Del]: the deferred clearing is
    registered only once a task has been fetched and decoded.  On the
    in-memory store the in-progress key therefore still holds the bytes
    that the script recorded there, and the entry is gone from the
    schedule. *)
Theorem consume_corrupt_task :
  (forall (W : Type) (env : Env any W) (w : W) t
          (sha1 : string) (keys args : list string) (s : bytes) (e : foreign),
     let r := exec env (consume t) w in
     CEvalSha sha1 keys args (inl (RString s)) ∈ trace r ->
     RString s <> StatusOK ->
     json_Unmarshal s = inr e ->
     result r =
       Returns
         (Some (Errorf "failed to get task: %w"
                  (Errorf "failed to unmarshal task and permanently lost it: %w"
                     (Foreign e) []) []))
     /\ Forall (fun c => is_ConsumeFunc c = false /\ is_Del c = false)
          (trace r))
  /\ (forall (w : World any) t (z : list (Z * bytes)) (score : Z)
             (s : bytes) (e : foreign),
        let r := exec mem_env (consume t) w in
        fault_at (oracle w) (S (S (steps w))) = None ->
        consumeScriptSha t = script w ->
        inProgressTaskKey t <> taskQueueKey t ->
        keyspace w !! taskQueueKey t = Some (VZSet z) ->
        lowest_due (time_Unix (now_at (oracle w) (steps w))) z
          = Some (score, s) ->
        RString s <> StatusOK ->
        json_Unmarshal s = inr e ->
        keyspace (final r) !! inProgressTaskKey t = Some (VString s)
        /\ keyspace (final r) !! taskQueueKey t = Some (VZSet (zrem s z))).
Proof.
  split.
  - intros W env w t sha1 keys args s e r. subst r.
    pose proof (consume_runs env w t) as Hrun. revert Hrun.
    generalize (trace (exec env (consume t) w))
               (result (exec env (consume t) w)).
    intros tr res Hrun Hin Hok Hjson.
    assert (forall r : reply + foreign,
              r = inl (RString s) ->
              claimed r =
                inr (Errorf "failed to unmarshal task and permanently lost it: %w"
                       (Foreign e) [])) as Hclaimed.
    { intros r ->. unfold claimed. rewrite decide_False by done.
      by rewrite Hjson. }
    destruct Hrun as [now r err Hc | now r task derr Hc
                     | now r task e' now' derr Hc Hex
                     | now r task e' now' zerr derr Hc Hex
                     | now r task v derr Hc].
    + assert (r = inl (RString s)) as Hr
        by (open_trace; set_unfold in Hin; intuition (simplify_eq; eauto)).
      rewrite (Hclaimed r Hr) in Hc. injection Hc as <-.
      split; [done |]. open_trace; all_calls.
    + assert (r = inl (RString s)) as Hr
        by (open_trace; set_unfold in Hin; intuition (simplify_eq; eauto)).
      rewrite (Hclaimed r Hr) in Hc. discriminate.
    + assert (r = inl (RString s)) as Hr
        by (open_trace; set_unfold in Hin; intuition (simplify_eq; eauto)).
      rewrite (Hclaimed r Hr) in Hc. discriminate.
    + assert (r = inl (RString s)) as Hr
        by (open_trace; set_unfold in Hin; intuition (simplify_eq; eauto)).
      rewrite (Hclaimed r Hr) in Hc. discriminate.
    + assert (r = inl (RString s)) as Hr
        by (open_trace; set_unfold in Hin; intuition (simplify_eq; eauto)).
      rewrite (Hclaimed r Hr) in Hc. discriminate.
  - intros w t z score s e r Hfault Hsha Hkeys Hks Hdue Hok Hjson. subst r.
    unfold consume, getTask, call, final. simpl.
    rewrite Hfault, Hsha, decide_True by done.
    unfold consume_lua. rewrite tonumber_Sprintf_d. simpl.
    rewrite Hks, Hdue. simpl.
    rewrite decide_False by done. rewrite Hjson. simpl.
    split.
    + apply lookup_insert_eq.
    + rewrite lookup_insert_ne by done. apply lookup_insert_eq.
Qed.

(** ** The consumer loop *)

Lemma Consume_runs {W : Type} (env : Env any W) (w : W) t (fuel : nat) :
  Consume_run t fuel (trace (exec env (Consume fuel t) w))
    (result (exec env (Consume fuel t) w)).
Proof.
  Opaque consume.
  revert w. induction fuel as [| fuel IH]; intros w; simpl.
  - apply loop_running.
  - unfold call. simpl.
    destruct (env _ select w) as [[|] w1]; simpl.
    + destruct (env _ (logger _ _ _) w1) as [[] w2]. simpl.
      rewrite exec_bind.
      pose proof (consume_runs env w2 t) as Hrun.
      destruct (exec env (consume t) w2) as [[res w3] tr].
      unfold trace, result in Hrun. simpl in Hrun.
      destruct res as [res | v]; simpl.
      * rewrite exec_bind.
        destruct res as [err |]; simpl.
        -- destruct (env _ (logger _ _ _) w3) as [[] w4]. simpl.
           specialize (IH w4).
           destruct (exec env (Consume fuel t) w4) as [[out w5] rest].
           unfold trace, result in *. simpl in *.
           by apply (loop_tick t fuel tr (Some err) rest out).
        -- specialize (IH w3).
           destruct (exec env (Consume fuel t) w3) as [[out w5] rest].
           unfold trace, result in *. simpl in *.
           by apply (loop_tick t fuel tr None rest out).
      * unfold trace, result. simpl. rewrite app_nil_r.
        by apply loop_panicked.
    + destruct (env _ (logger _ _ _) w1) as [[] w2]. simpl.
      apply loop_stopped.
  Transparent consume.
Qed.

Lemma filter_none (P : Call any -> bool) (tr : list (Call any)) :
  Forall (fun c => P c = false) tr -> filter (fun c => P c = true) tr = [].
Proof.
  induction 1 as [| c tr Hc _ IH]; [done |].
  rewrite filter_cons_False by congruence. done.
Qed.

(** A tick that returns has seen no panic; a tick that a panic leaves
    ends with the handler's call and the deferred clearing. *)
Lemma consume_run_returns t (tr : list (Call any)) (res : option error) :
  consume_run t tr (Returns res) -> Forall (fun c => is_Panic c = false) tr.
Proof. inversion 1; subst; open_trace; all_calls. Qed.

Lemma consume_run_panics t (tr : list (Call any)) (v : foreign) :
  consume_run t tr (Panics v) ->
  exists (pre : list (Call any)) (id : UUID) (payload : any)
         (derr : option foreign),
    tr = pre ++ CConsumeFunc id payload (Panics v) :: clearing t derr
    /\ Forall (fun c => is_Panic c = false) pre.
Proof.
  inversion 1; subst.
  eexists (fetching _ _ _ ++ [CLog Debug "consuming task" None]), _, _, _.
  split; [by rewrite <- !app_assoc |]. open_trace; all_calls.
Qed.

Lemma Consume_run_facts t (fuel : nat) (tr : list (Call any))
  (out : option (outcome unit)) :
  Consume_run t fuel tr out ->
  (out = Some (Returns tt) <-> CSelect CtxDone ∈ tr)
  /\ (out = Some (Returns tt) ->
      exists tr', tr = tr' ++ [CSelect CtxDone; CLog Info "stopping" None])
  /\ (forall v : foreign,
        out = Some (Panics v)
        <-> exists (id : UUID) (payload : any),
              CConsumeFunc id payload (Panics v) ∈ tr)
  /\ (forall v : foreign,
        out = Some (Panics v) ->
        exists (tr' : list (Call any)) (id : UUID) (payload : any)
               (derr : option foreign),
          tr = tr' ++ CConsumeFunc id payload (Panics v) :: clearing t derr)
  /\ (out = None ->
      length (filter (fun c => is_Select c = true) tr) = fuel
      /\ CSelect CtxDone ∉ tr).
Proof.
  induction 1 as [| fuel | fuel tr res rest out Hrun Hrest IH
                 | fuel tr v Hrun].
  - repeat split; try done.
    + by intros ?%elem_of_nil.
    + by intros (? & ? & ?%elem_of_nil).
    + by intros ?%elem_of_nil.
  - repeat split; try done.
    + intros _. set_unfold. eauto.
    + intros _. by exists [].
    + intros (? & ? & Hin). set_unfold in Hin. intuition simplify_eq.
  - pose proof (consume_run_calls t tr _ Hrun) as Hsel.
    pose proof (consume_run_returns t tr _ Hrun) as Hpan.
    assert (CSelect CtxDone ∉ tr) as Hno.
    { intros Hin. rewrite Forall_forall in Hsel. by apply Hsel in Hin. }
    assert (CSelect CtxDone ∉ @logged any res) as Hno'.
    { destruct res; set_unfold; intuition simplify_eq. }
    assert (forall id payload v, CConsumeFunc id payload (Panics v) ∉ tr)
      as Hnp.
    { intros id payload v Hin. rewrite Forall_forall in Hpan.
      by apply Hpan in Hin. }
    assert (forall id payload v,
              CConsumeFunc id payload (Panics v) ∉ @logged any res) as Hnp'.
    { intros id payload v. destruct res; set_unfold; intuition simplify_eq. }
    destruct IH as (IH1 & IH2 & IH3 & IH4 & IH5).
    split; [| split; [| split; [| split]]].
    + rewrite IH1. set_unfold. intuition simplify_eq.
    + intros Hout. destruct (IH2 Hout) as [tr' ->].
      exists (CSelect TickerC :: CLog Info "consuming task" None
              :: tr ++ @logged any res ++ tr').
      simpl. by rewrite <- !app_assoc.
    + intros v. rewrite IH3. split.
      * intros (id & payload & Hin). exists id, payload. set_unfold. eauto.
      * intros (id & payload & Hin). exists id, payload.
        set_unfold in Hin.
        destruct Hin as [? | [? | [Hin | [Hin | Hin]]]]; try done.
        -- by apply Hnp in Hin.
        -- by apply Hnp' in Hin.
    + intros v Hout.
      destruct (IH4 v Hout) as (tr' & id & payload & derr & ->).
      exists (CSelect TickerC :: CLog Info "consuming task" None
              :: tr ++ @logged any res ++ tr'), id, payload, derr.
      simpl. by rewrite <- !app_assoc.
    + intros Hout. destruct (IH5 Hout) as [Hlen Hrest'].
      split.
      * rewrite filter_cons_True by done.
        rewrite filter_cons_False by done.
        rewrite !filter_app, (filter_none is_Select tr Hsel).
        rewrite (filter_none is_Select (@logged any res)) by (by destruct res; all_calls).
        simpl. by rewrite Hlen.
      * set_unfold. intuition simplify_eq.
  - pose proof (consume_run_calls t tr _ Hrun) as Hsel.
    assert (CSelect CtxDone ∉ tr) as Hno.
    { intros Hin. rewrite Forall_forall in Hsel. by apply Hsel in Hin. }
    destruct (consume_run_panics t tr v Hrun)
      as (pre & id & payload & derr & Heq & Hpre).
    assert (forall id' payload' v',
              CConsumeFunc id' payload' (Panics v') ∈ tr -> v' = v) as Hone.
    { intros id' payload' v' Hin. rewrite Heq in Hin.
      rewrite Forall_forall in Hpre.
      apply elem_of_app in Hin as [Hin | Hin]; [by apply Hpre in Hin |].
      apply elem_of_cons in Hin as [Hin | Hin]; [by simplify_eq |].
      unfold clearing in Hin. destruct derr; set_unfold in Hin;
        intuition simplify_eq. }
    split; [| split; [| split; [| split]]]; try done.
    + split; [done |]. intros Hin. exfalso.
      apply elem_of_cons in Hin as [? | Hin]; [done |].
      apply elem_of_cons in Hin as [? | Hin]; [done |]. done.
    + intros v'. split.
      * intros [= <-]. exists id, payload. rewrite Heq.
        do 2 apply list_elem_of_further. apply elem_of_app. right.
        apply list_elem_of_here.
      * intros (id' & payload' & Hin).
        apply elem_of_cons in Hin as [? | Hin]; [done |].
        apply elem_of_cons in Hin as [? | Hin]; [done |].
        by rewrite (Hone id' payload' v' Hin).
    + intros v' [= <-].
      exists (CSelect TickerC :: CLog Info "consuming task" None :: pre),
        id, payload, derr. by rewrite Heq.
Qed.

(** C8, as the code has it.  Every run of [Consume] is a succession of
    ticks, each a run of [consume] whose error, if it returns one, is
    logged before the loop goes on.  The function returns only on the
    run's one cancellation, which ends the run; as long as the [select]
    answers with the ticker and the handler returns, the loop is still
    running, whatever the ticks returned, and it has gone through as many
    ticks as it had fuel.  A run of [consume] never reaches the [select]:
    the cancellation is not looked at in the middle of a tick.  The one
    other way out of the loop is a panic of the handler: nothing recovers
    from it, so that after the deferred [Del] it leaves [consume] and
    [Consume] at once, in the middle of the tick. *)
Theorem Consume_exits_on_cancellation_only :
  (forall (W : Type) (env : Env any W) (w : W) t (fuel : nat),
     let r := exec env (Consume fuel t) w in
     Consume_run t fuel (trace r) (result r)
     /\ (result r = Some (Returns tt) <-> CSelect CtxDone ∈ trace r)
     /\ (result r = Some (Returns tt) ->
         exists tr,
           trace r = tr ++ [CSelect CtxDone; CLog Info "stopping" None])
     /\ (forall v : foreign,
           result r = Some (Panics v)
           <-> exists (id : UUID) (payload : any),
                 CConsumeFunc id payload (Panics v) ∈ trace r)
     /\ (forall v : foreign,
           result r = Some (Panics v) ->
           exists (tr : list (Call any)) (id : UUID) (payload : any)
                  (derr : option foreign),
             trace r =
               tr ++ CConsumeFunc id payload (Panics v) :: clearing t derr)
     /\ (result r = None ->
         length (filter (fun c => is_Select c = true) (trace r)) = fuel
         /\ CSelect CtxDone ∉ trace r))
  /\ (forall (W : Type) (env : Env any W) (w : W) t,
        Forall (fun c => is_Select c = false)
          (trace (exec env (consume t) w))).
Proof.
  split.
  - intros W env w t fuel r.
    pose proof (Consume_runs env w t fuel) as Hrun. fold r in Hrun.
    split; [done |]. by apply Consume_run_facts in Hrun.
  - intros W env w t.
    apply (consume_run_calls t _ _ (consume_runs env w t)).
Qed.

(** ** The claim, with workers side by side *)

Lemma lowest_due_Some (now : Z) (z : list (Z * bytes)) (e : Z * bytes) :
  lowest_due now z = Some e -> e ∈ z /\ e.1 <= now.
Proof.
  revert e. induction z as [| e0 z IH]; intros e; simpl; [done |].
  destruct (lowest_due now z) as [e' |].
  - destruct (IH e' eq_refl) as [Hin Hle].
    destruct ((e0.1 <=? now) && (e0.1 <=? e'.1)) eqn:Htest; intros [= <-].
    + apply andb_true_iff in Htest as [H1%Z.leb_le _].
      split; [apply list_elem_of_here | done].
    + split; [by apply list_elem_of_further | done].
  - destruct (Z.leb_spec e0.1 now); intros [= <-].
    split; [apply list_elem_of_here | done].
Qed.

Lemma lowest_due_None (now : Z) (z : list (Z * bytes)) :
  Forall (fun e => ~ e.1 <= now) z -> lowest_due now z = None.
Proof.
  induction 1 as [| e z He _ IH]; simpl; [done |].
  rewrite IH. destruct (Z.leb_spec e.1 now); [lia | done].
Qed.

Lemma lowest_due_is_Some (now : Z) (z : list (Z * bytes)) (e : Z * bytes) :
  e ∈ z -> e.1 <= now -> is_Some (lowest_due now z).
Proof.
  induction 1 as [e z | e e0 z Hin IH]; intros Hle; simpl.
  - destruct (lowest_due now z) as [e' |].
    + destruct (_ && _); eauto.
    + destruct (Z.leb_spec e.1 now); [eauto | lia].
  - destruct (IH Hle) as [e' ->]. destruct (_ && _); eauto.
Qed.

Lemma lowest_due_only (now : Time) (z : list (Z * bytes)) (e : Z * bytes) :
  due_entries now z = [e] -> lowest_due (time_Unix now) z = Some e.
Proof.
  intros Hdue.
  assert (e ∈ due_entries now z) as He
    by (rewrite Hdue; apply list_elem_of_here).
  apply list_elem_of_filter in He as [Hle Hin].
  destruct (lowest_due_is_Some _ _ _ Hin Hle) as [e' He'].
  rewrite He'. f_equal.
  apply lowest_due_Some in He' as [Hin' Hle'].
  assert (e' ∈ due_entries now z) as Hd
    by (by apply list_elem_of_filter).
  rewrite Hdue in Hd. by apply list_elem_of_singleton in Hd.
Qed.

Lemma lowest_due_claimed (now : Time) (z : list (Z * bytes))
  (score : Z) (b : bytes) :
  due_entries now z = [(score, b)] ->
  lowest_due (time_Unix now) (zrem b z) = None.
Proof.
  intros Hdue. apply lowest_due_None, Forall_forall.
  intros e [Hb Hin]%list_elem_of_filter Hle.
  assert (e ∈ due_entries now z) as Hd
    by (by apply list_elem_of_filter).
  rewrite Hdue in Hd. apply list_elem_of_singleton in Hd. by subst e.
Qed.

Lemma zrem_gone (b : bytes) (z : list (Z * bytes)) (score : Z) :
  (score, b) ∉ zrem b z.
Proof. by intros [Hb _]%list_elem_of_filter. Qed.

Section Claim.

Variables (qk sha : string) (o : Oracle any).
Variables (z : list (Z * bytes)) (score : Z) (b : bytes) (task : Task any).

Hypothesis no_fault : forall n : nat, fault_at o n = None.
Hypothesis one_due : forall n : nat, due_entries (now_at o n) z = [(score, b)].
Hypothesis not_status : RString b <> StatusOK.
Hypothesis decodes : json_Unmarshal b = inl task.

Local Abbreviation due := (only_due z (score, b)).

Lemma step_waiting_unclaimed t p p' (w w' : World any) :
  serves qk sha t -> waiting due t p -> holds qk sha o z w ->
  step_thread mem_env p w = (p', w') ->
  (waiting due t p' /\ holds qk sha o z w')
  \/ (p' = Ret (inl task) /\ holds qk sha o (zrem b z) w').
Proof.
  intros (Hqk & Hsha & Hkeys) Hp (Ho & Hs & Hks).
  destruct Hp as [| now Hnow | now Hnow]; unfold getTask, call; simpl.
  - intros [= <- <-]. left. split; [| done].
    apply (waiting_clock due t). rewrite Ho. apply one_due.
  - intros [= <- <-]. left. split; [| done].
    by apply (waiting_script due t).
  - rewrite Ho, no_fault, Hsha, Hs. rewrite decide_True by done.
    unfold consume_lua. rewrite tonumber_Sprintf_d, Hqk, Hks.
    rewrite (lowest_due_only now z (score, b) Hnow). simpl.
    intros [= <- <-]. right.
    rewrite decide_False by done. rewrite decodes.
    split; [done |]. split; [done |]. split; [done |]. simpl.
    rewrite lookup_insert_ne by done. apply lookup_insert_eq.
Qed.

Lemma step_waiting_claimed t p p' (w w' : World any) :
  serves qk sha t -> waiting due t p -> holds qk sha o (zrem b z) w ->
  step_thread mem_env p w = (p', w') ->
  (waiting due t p' \/ empty_handed t p') /\ holds qk sha o (zrem b z) w'.
Proof.
  intros (Hqk & Hsha & Hkeys) Hp (Ho & Hs & Hks).
  destruct Hp as [| now Hnow | now Hnow]; unfold getTask, call; simpl.
  - intros [= <- <-]. split; [| done]. left.
    apply (waiting_clock due t). rewrite Ho. apply one_due.
  - intros [= <- <-]. split; [| done]. left.
    by apply (waiting_script due t).
  - rewrite Ho, no_fault, Hsha, Hs. rewrite decide_True by done.
    unfold consume_lua. rewrite tonumber_Sprintf_d, Hqk, Hks.
    rewrite (lowest_due_claimed now z score b Hnow). simpl.
    intros [= <- <-]. split; [| done]. right.
    pose proof (empty_answered t now) as H.
    unfold getTask, call in H. by simpl in H.
Qed.

Lemma step_empty_handed t p p' (w w' : World any) (z' : list (Z * bytes)) :
  empty_handed t p -> holds qk sha o z' w ->
  step_thread mem_env p w = (p', w') ->
  empty_handed t p' /\ holds qk sha o z' w'.
Proof.
  intros Hp (Ho & Hs & Hks).
  destruct Hp as [now |]; unfold getTask, call; simpl.
  - intros [= <- <-]. split; [apply empty_returned | done].
  - intros [= <- <-]. split; [apply empty_returned | done].
Qed.

Lemma waiting_pending t p : waiting due t p -> finished p = None.
Proof. by intros []. Qed.

Lemma empty_handed_finished t p :
  empty_handed t p -> is_Some (finished p) ->
  p = Ret (inr ErrNoTaskToConsume).
Proof. intros [] [a Ha]; [discriminate | done]. Qed.

Local Abbreviation before_claim := (before_claim qk sha o z (score, b)).
Local Abbreviation after_claim := (after_claim qk sha o z (score, b) task).

Lemma run_pool_claim (workers : list TaskQueue) (sched : list nat) :
  Forall (serves qk sha) workers ->
  forall (pool : list (Prog any (Task any + error))) (w : World any),
    length pool = length workers ->
    before_claim workers pool w \/ after_claim workers pool w ->
    let r := run_pool mem_env sched pool w in
    length r.1 = length workers
    /\ (before_claim workers r.1 r.2 \/ after_claim workers r.1 r.2).
Proof.
  intros Hserve. induction sched as [| i sched IH]; intros pool w Hlen Hinv.
  { done. }
  simpl. destruct (pool !! i) as [p |] eqn:Hp; [| by apply IH].
  destruct (step_thread mem_env p w) as [p' w1] eqn:Hstep.
  assert (i < length workers)%nat as Hi
    by (rewrite <- Hlen; by apply lookup_lt_Some in Hp).
  destruct (lookup_lt_is_Some_2 workers i Hi) as [t Ht].
  assert (serves qk sha t) as Hst
    by (rewrite Forall_forall in Hserve; apply Hserve;
        by apply list_elem_of_lookup_2 in Ht).
  apply IH; [by rewrite length_insert |].
  destruct Hinv as [[Hw Hpool] | [Hw (i0 & Hwin & Hpool)]].
  - destruct (step_waiting_unclaimed t p p' w w1 Hst (Hpool i t p Ht Hp)
                Hw Hstep) as [[Hp' Hw1] | [-> Hw1]].
    + left. split; [done |]. intros j t' q Ht' Hq.
      destruct (decide (j = i)) as [-> | Hne].
      * rewrite list_lookup_insert_eq in Hq by (by rewrite Hlen).
        by simplify_eq.
      * rewrite list_lookup_insert_ne in Hq by done. eauto.
    + right. split; [done |]. exists i. split.
      * apply list_lookup_insert_eq. by rewrite Hlen.
      * intros j t' q Hne Ht' Hq.
        rewrite list_lookup_insert_ne in Hq by done. eauto.
  - right. destruct (decide (i = i0)) as [-> | Hne].
    + rewrite Hwin in Hp. injection Hp as <-. simpl in Hstep.
      injection Hstep as <- <-. rewrite list_insert_id by done.
      split; [done |]. eauto.
    + assert ((waiting due t p' \/ empty_handed t p')
              /\ holds qk sha o (zrem b z) w1) as [Hp' Hw1].
      { destruct (Hpool i t p Hne Ht Hp) as [Hwait | Hempty].
        - by apply (step_waiting_claimed t p p' w w1).
        - destruct (step_empty_handed t p p' w w1 _ Hempty Hw Hstep). eauto. }
      split; [done |]. exists i0. split.
      * by rewrite list_lookup_insert_ne.
      * intros j t' q Hj Ht' Hq.
        destruct (decide (j = i)) as [-> | Hji].
        -- rewrite list_lookup_insert_eq in Hq by (by rewrite Hlen).
           by simplify_eq.
        -- rewrite list_lookup_insert_ne in Hq by done. eauto.
Qed.

End Claim.

(** ** From the producer to the claim *)

(** The queue hands the bytes through untouched: a task scheduled on an
    empty queue and claimed once it is due comes back as whatever the
    codec makes of the bytes it produced for the task. *)
Lemma claim_decodes_what_was_encoded (w : World any) t (payload : any)
  (executeAt : Time) (data : bytes) :
  let task := {| ID := uuid_at (oracle w) (steps w); Payload := payload;
                 RetryCount := 0; Wait := 0 |} in
  let r1 := exec mem_env (ProduceAt t payload executeAt) w in
  let r2 := exec mem_env (getTask t) (final r1) in
  fault_at (oracle w) (2 + steps w) = None ->
  fault_at (oracle w) (5 + steps w) = None ->
  consumeScriptSha t = script w ->
  inProgressTaskKey t <> taskQueueKey t ->
  keyspace w !! taskQueueKey t = None ->
  json_Marshal task = inl data ->
  RString data <> StatusOK ->
  float64 (time_Unix executeAt)
    <= time_Unix (now_at (oracle w) (3 + steps w)) ->
  result r1 = (ID task, None)
  /\ result r2 =
     match json_Unmarshal data with
     | inl task' => inl task'
     | inr e =>
         inr (Errorf "failed to unmarshal task and permanently lost it: %w"
                (Foreign e) [])
     end
  /\ keyspace (final r2) !! inProgressTaskKey t = Some (VString data).
Proof.
  intros task r1 r2 Hf2 Hf5 Hsha Hkeys Hks Hm Hok Hdue. subst r1 r2.
  unfold ProduceAt, produceAt, getTask, call, result, final. simpl in *.
  rewrite Hf2. unfold mem_ZAdd, MarshalBinary. simpl. fold task.
  rewrite Hm, Hks. simpl. split; [done |].
  rewrite Hf5, Hsha, decide_True by done.
  unfold consume_lua. rewrite tonumber_Sprintf_d. simpl.
  rewrite lookup_insert_eq. simpl.
  destruct (Z.leb_spec (float64 (time_Unix executeAt))
              (time_Unix (now_at (oracle w) (S (S (S (steps w)))))));
    [| lia].
  simpl. rewrite decide_False by done.
  split.
  - by destruct (json_Unmarshal data).
  - destruct (json_Unmarshal data); simpl; apply lookup_insert_eq.
Qed.

(** A task is not handed out before its time. *)
Lemma claim_waits_for_due_time (w : World any) t (z : list (Z * bytes)) :
  fault_at (oracle w) (2 + steps w) = None ->
  consumeScriptSha t = script w ->
  keyspace w !! taskQueueKey t = Some (VZSet z) ->
  Forall (fun e => time_Unix (now_at (oracle w) (steps w)) < e.1) z ->
  let r := exec mem_env (getTask t) w in
  result r = inr ErrNoTaskToConsume /\ keyspace (final r) = keyspace w.
Proof.
  intros Hf Hsha Hks Hdue r. subst r.
  unfold getTask, call, result, final. simpl in *.
  rewrite Hf, Hsha, decide_True by done.
  unfold consume_lua. rewrite tonumber_Sprintf_d. simpl. rewrite Hks.
  rewrite lowest_due_None; [done |].
  eapply Forall_impl; [exact Hdue |]. simpl. intros e He. lia.
Qed.

(** ** Workers that are given enough steps return *)

Lemma within_mono {A : Type} (p : Prog any A) (n m : nat) :
  within n p -> (n <= m)%nat -> within m p.
Proof.
  revert n m. induction p as [a | X c k IH]; intros n m H Hle; [done |].
  destruct n as [| n]; [done |]. destruct m as [| m]; [lia |].
  intros x. apply (IH x n m); [apply H | lia].
Qed.

Lemma within_step {W A : Type} (env : Env any W) (p p' : Prog any A)
  (w w' : W) (n : nat) :
  within n p -> step_thread env p w = (p', w') -> within (pred n) p'.
Proof.
  destruct p as [a | X c k]; simpl.
  - by intros _ [= <- <-].
  - destruct n as [| n]; [done |]. intros H.
    destruct (env X c w) as [x w1]. intros [= <- <-]. apply H.
Qed.

Lemma within_finished {A : Type} (p : Prog any A) :
  within 0 p -> is_Some (finished p).
Proof. destruct p; [by eexists | done]. Qed.

Lemma getTask_within t : within 4 (getTask t).
Proof.
  unfold getTask, call. simpl. intros now [] [taskInterface | e]; simpl; [| done].
  destruct (decide (taskInterface = StatusOK)); simpl; [done |].
  destruct taskInterface as [| int | taskStr]; simpl; try done.
  by destruct (json_Unmarshal taskStr).
Qed.

Lemma run_pool_length {W A : Type} (env : Env any W) (sched : list nat)
  (pool : list (Prog any A)) (w : W) :
  length (run_pool env sched pool w).1 = length pool.
Proof.
  revert pool w. induction sched as [| i sched IH]; intros pool w; [done |].
  simpl. destruct (pool !! i) as [p |]; [| apply IH].
  destruct (step_thread env p w) as [p' w1].
  by rewrite IH, length_insert.
Qed.

Lemma turns_cons (i j : nat) (sched : list nat) :
  turns j (i :: sched) = ((if decide (i = j) then 1 else 0) + turns j sched)%nat.
Proof.
  unfold turns. destruct (decide (i = j)) as [-> | Hne].
  - by rewrite filter_cons_True.
  - by rewrite filter_cons_False.
Qed.

Lemma run_pool_within {W A : Type} (env : Env any W) (sched : list nat) :
  forall (pool : list (Prog any A)) (w : W) (budget : nat -> nat),
    (forall j p, pool !! j = Some p -> within (budget j) p) ->
    forall j p, (run_pool env sched pool w).1 !! j = Some p ->
      within (budget j - turns j sched) p.
Proof.
  induction sched as [| i sched IH]; intros pool w budget Hpool j p'; simpl.
  { intros Hp. rewrite Nat.sub_0_r. by apply Hpool. }
  rewrite turns_cons.
  destruct (pool !! i) as [p |] eqn:Hp.
  - destruct (step_thread env p w) as [q w1] eqn:Hstep. intros Hj.
    pose proof (IH (<[i := q]> pool) w1
                  (fun j => if decide (i = j) then pred (budget j) else budget j))
      as IH'.
    simpl in IH'. specialize (IH' ltac:(
      intros j0 p0 Hp0; destruct (decide (i = j0)) as [<- | Hne];
      [ rewrite list_lookup_insert_eq in Hp0
          by (by apply lookup_lt_Some in Hp);
        injection Hp0 as <-;
        by apply (within_step env p q w w1 (budget i) (Hpool i p Hp))
      | rewrite list_lookup_insert_ne in Hp0 by done; by apply Hpool ])
      j p' Hj).
    destruct (decide (i = j)); apply (within_mono _ _ _ IH'); lia.
  - intros Hj. destruct (decide (i = j)) as [<- | Hne].
    + apply lookup_ge_None in Hp.
      apply lookup_lt_Some in Hj. rewrite run_pool_length in Hj. lia.
    + apply (IH pool w budget Hpool j p' Hj).
Qed.

(** C4. Any number of workers claim side by side from a schedule in
    which exactly one task is due, each call answered in one piece and
    the calls of the workers interleaved in any order.  A worker that is
    given four steps has returned.  Once all of them have returned,
    exactly one holds that task, every other one has got
    [ErrNoTaskToConsume], and the task's entry is no longer in the
    schedule. *)
Theorem no_double_claim (workers : list TaskQueue) (w : World any)
  (qk : string) (z : list (Z * bytes)) (score : Z) (b : bytes)
  (task : Task any) (sched : list nat) :
  workers <> [] ->
  Forall (serves qk (script w)) workers ->
  (forall n : nat, fault_at (oracle w) n = None) ->
  keyspace w !! qk = Some (VZSet z) ->
  (forall n : nat, due_entries (now_at (oracle w) n) z = [(score, b)]) ->
  RString b <> StatusOK ->
  json_Unmarshal b = inl task ->
  let r := run_pool mem_env sched (getTask <$> workers) w in
  ((forall j : nat, (j < length workers)%nat -> (4 <= turns j sched)%nat) ->
   Forall (fun p => is_Some (finished p)) r.1)
  /\ (Forall (fun p => is_Some (finished p)) r.1 ->
      (exists i : nat,
         r.1 !! i = Some (Ret (inl task))
         /\ forall j : nat, j <> i -> (j < length workers)%nat ->
              r.1 !! j = Some (Ret (inr ErrNoTaskToConsume)))
      /\ exists z' : list (Z * bytes),
           keyspace r.2 !! qk = Some (VZSet z')
           /\ forall s : Z, (s, b) ∉ z').
Proof.
  intros Hne Hserve Hfault Hks Hdue Hok Hjson r. split.
  { intros Hfair. apply Forall_lookup. intros j p Hp.
    apply within_finished.
    assert (j < length workers)%nat as Hj.
    { apply lookup_lt_Some in Hp. unfold r in Hp.
      by rewrite run_pool_length, length_fmap in Hp. }
    pose proof (run_pool_within mem_env sched (getTask <$> workers) w
                  (fun _ => 4%nat)) as Hrun.
    simpl in Hrun. apply (within_mono _ (4 - turns j sched)).
    - apply Hrun; [| done]. intros j0 p0 Hp0.
      apply list_lookup_fmap_Some in Hp0 as (t & -> & _).
      apply getTask_within.
    - specialize (Hfair j Hj). lia. }
  intros Hfin.
  destruct (run_pool_claim qk (script w) (oracle w) z score b task
              Hfault Hdue Hok Hjson workers sched Hserve
              (getTask <$> workers) w) as [Hlen Hinv].
  { by rewrite length_fmap. }
  { left. split; [done |]. intros j t p Ht Hp.
    rewrite list_lookup_fmap, Ht in Hp. injection Hp as <-.
    apply waiting_start. }
  fold r in Hlen, Hinv. rewrite Forall_forall in Hfin.
  destruct Hinv as [[Hw Hpool] | [Hw (i & Hwin & Hpool)]].
  - exfalso. destruct workers as [| t ws]; [done |].
    destruct (lookup_lt_is_Some_2 r.1 0) as [p Hp];
      [rewrite Hlen; simpl; lia |].
    pose proof (Hpool 0%nat t p eq_refl Hp) as Hwait.
    apply waiting_pending in Hwait.
    destruct (Hfin p) as [a Ha]; [by apply list_elem_of_lookup_2 in Hp |].
    congruence.
  - split.
    + exists i. split; [done |]. intros j Hj Hlt.
      destruct (lookup_lt_is_Some_2 workers j Hlt) as [t Ht].
      destruct (lookup_lt_is_Some_2 r.1 j) as [p Hp]; [by rewrite Hlen |].
      rewrite Hp. f_equal.
      assert (is_Some (finished p)) as Hdone
        by (apply Hfin; by apply list_elem_of_lookup_2 in Hp).
      destruct (Hpool j t p Hj Ht Hp) as [Hwait | Hempty].
      * apply waiting_pending in Hwait. destruct Hdone. congruence.
      * by apply (empty_handed_finished t).
    + exists (zrem b z). destruct Hw as (_ & _ & Hks'). split; [done |].
      intros s. apply zrem_gone.
Qed.

End Proofs.

(** ** The task, serialized and read back *)

Lemma unmarshal_any_JArray (l : list json) :
  unmarshal_any (JArray l) =
  match unmarshal_elements l with
  | inl vs => inl (GoSlice vs)
  | inr e => inr e
  end.
Proof. done. Qed.

Lemma unmarshal_any_JObject (m : list (string * json)) :
  unmarshal_any (JObject m) =
  match unmarshal_entries m with
  | inl vs => inl (GoMap vs)
  | inr e => inr e
  end.
Proof. done. Qed.











Section RoundTrip.

Variable json_print : json -> bytes.
Variable json_parse : bytes -> json + foreign.
Variable uuid_MarshalText : UUID -> string.
Variable uuid_UnmarshalText : string -> UUID + foreign.

Local Abbreviation codec :=
  (go_json json_print json_parse uuid_MarshalText uuid_UnmarshalText).




End RoundTrip.

(** * The model at work *)

Lemma produceRetry_backoff_witness :
  let task := {| ID := 1%N; Payload := "hello"; RetryCount := 1;
                 Wait := 1000000000 |} in
  (maxRetries (Plain.queue (-1)) < 0
   \/ RetryCount task < maxRetries (Plain.queue (-1)))
  /\ exists (now : Time) (zerr : option foreign) (m : redis_Z string),
       trace (exec mem_env (produceRetry (Plain.queue (-1)) task)
                (Plain.world (Plain.calm 5000000000) ∅)) =
         [CNow now; CZAdd (taskQueueKey (Plain.queue (-1))) m zerr]
       /\ Score m = float64 (time_Unix (time_Add now (Wait (Member m))))
       /\ (Wait task <= 0 -> Wait (Member m) = time_Second)
       /\ (0 < Wait task -> 2 * Wait task <= max_int64 ->
           Wait (Member m) = 2 * Wait task)
       /\ (Wait task = 0 \/ time_Second <= 2 * Wait task <= max_int64 ->
           Wait (Member m) = Z.max time_Second (2 * Wait task)).
Proof.
  split; [left; simpl; lia |].
  apply (produceRetry_backoff (World string) mem_env). left. simpl. lia.
Defined.

(** Against C1 as the specification words it: a task whose wait is a
    quarter of a second is rescheduled with a wait of half a second,
    where the maximum of one second and twice the wait is one second; and
    a task that has failed 34 times in a row, whose wait is 2^33 seconds,
    is rescheduled with a negative wait. *)
Lemma produceRetry_backoff_counterexample :
  let task := {| ID := 1%N; Payload := "hello"; RetryCount := 1;
                 Wait := 250000000 |} in
  let r := exec mem_env (produceRetry (Plain.queue (-1)) task)
             (Plain.world (Plain.calm 5000000000) ∅) in
  let task' := lifetime Sample.fresh 34 in
  let r' := exec mem_env (produceRetry (Plain.queue (-1)) task')
              (Plain.world (Plain.calm 5000000000) ∅) in
  (maxRetries (Plain.queue (-1)) < 0
   \/ RetryCount task < maxRetries (Plain.queue (-1)))
  /\ trace r =
       [CNow 5000000000;
        CZAdd "taskqueue:simple:tasks:dummy-consumer"
          {| Score := 5;
             Member := {| ID := 1%N; Payload := "hello"; RetryCount := 2;
                          Wait := 500000000 |} |} None]
  /\ Z.max time_Second (2 * Wait task) = 1000000000
  /\ 500000000 <> Z.max time_Second (2 * Wait task)
  /\ Wait task' = 8589934592000000000
  /\ trace r' =
       [CNow 5000000000;
        CZAdd "taskqueue:simple:tasks:dummy-consumer"
          {| Score := -1266874885;
             Member := {| ID := 1%N; Payload := "hello"; RetryCount := 35;
                          Wait := -1266874889709551616 |} |} None]
  /\ Z.max time_Second (2 * Wait task') = 17179869184000000000.
Proof.
  split; [left; simpl; lia |]. split; [reflexivity |].
  split; [reflexivity |]. split; [discriminate |].
  split; [vm_compute; reflexivity |]. split; vm_compute; reflexivity.
Qed.

Lemma produceRetry_ceiling_witness :
  (is_MaxRetries
     (result (exec mem_env (produceRetry (Plain.queue 2) (lifetime Sample.fresh 2))
                (Plain.world (Plain.calm 5000000000) ∅))) = true
   <-> 2%nat = 2%nat)
  /\ (is_MaxRetries
        (result (exec mem_env (produceRetry (Plain.queue 2) (lifetime Sample.fresh 1))
                   (Plain.world (Plain.calm 5000000000) ∅))) = true
      <-> 1%nat = 2%nat)
  /\ is_MaxRetries
       (result (exec mem_env
                  (produceRetry (Plain.queue (-1)) (lifetime Sample.fresh 50))
                  (Plain.world (Plain.calm 5000000000) ∅))) = false.
Proof.
  destruct (@produceRetry_ceiling string) as (_ & Hk & Hneg).
  split; [| split].
  - apply (Hk (World string) mem_env _ (Plain.queue 2) Sample.fresh 2%nat 2%nat);
      [reflexivity | unfold max_int64; lia | reflexivity | lia].
  - apply (Hk (World string) mem_env _ (Plain.queue 2) Sample.fresh 2%nat 1%nat);
      [reflexivity | unfold max_int64; lia | reflexivity | lia].
  - apply (Hneg (World string) mem_env). simpl. lia.
Defined.

Lemma consume_task_lost_witness :
  let r := exec mem_env (consume (Plain.queue (-1)))
             (Plain.world (Sample.failing 5000000000) Sample.scheduled) in
  exists (now : Time) (zerr : option foreign),
    filter (fun c => is_ZAdd c = true) (trace r) =
      [CZAdd (taskQueueKey (Plain.queue (-1)))
         {| Score := float64 (time_Unix (time_Add now (wait Sample.fresh)));
            Member := retryTask Sample.fresh |} zerr]
    /\ result r =
       Returns
         match zerr with
         | Some ze =>
             Some (ErrTaskLost (ID Sample.fresh)
               (Errorf "failed to run consume func and failed to enqueue it for retry: %w"
                  (Errorf "failed to produce retry task: %w"
                     (Errorf "failed to zadd message: %w" (Foreign ze) [])
                     []) []))
         | None =>
             Some (Errorf "failed to run consume func: %w" (Foreign "boom") [])
         end.
Proof.
  destruct (consume_task_lost (World string) mem_env
              (Plain.world (Sample.failing 5000000000) Sample.scheduled)
              (Plain.queue (-1)) "sha"
              [taskQueueKey (Plain.queue (-1));
               inProgressTaskKey (Plain.queue (-1))] ["5"]
              (inl (RString "1|0|0|hello")) Sample.fresh 1%N "hello" "boom")
    as (_ & _ & Hbelow & _).
  - vm_compute. do 2 apply list_elem_of_further. apply list_elem_of_here.
  - reflexivity.
  - vm_compute. do 4 apply list_elem_of_further. apply list_elem_of_here.
  - apply Hbelow. unfold exceeded. simpl. lia.
Defined.

(** Against C3 as the specification words it: with a ceiling of 0 the
    first failure of the handler is answered with [ErrTaskLost], although
    no call to the store failed and no reschedule was attempted. *)
Lemma consume_task_lost_counterexample :
  let r := exec mem_env (consume (Plain.queue 0))
             (Plain.world (Sample.failing 5000000000) Sample.scheduled) in
  result r =
    Returns
      (Some (ErrTaskLost 1%N
               (Errorf "failed to run consume func and failed to enqueue it for retry: %w"
                  (Errorf "%w: %s, %d" ErrMaxTaskReties [ArgUUID 1%N; ArgInt 0])
                  [])))
  /\ trace r =
       [CNow 5000000000; CLog Debug "fetching task to execute" None;
        CEvalSha "sha"
          ["taskqueue:simple:tasks:dummy-consumer";
           "taskqueue:simple:workers:worker1:tasks:dummy-consumer"]
          ["5"] (inl (RString "1|0|0|hello"));
        CLog Debug "consuming task" None;
        CConsumeFunc 1%N "hello" (Returns (Some "boom"));
        CLog Debug "failed to consume, retrying after backoff"
          (Some (Foreign "boom"));
        CNow 5000000000;
        CDel "taskqueue:simple:workers:worker1:tasks:dummy-consumer" None]
  /\ Forall (fun c => is_ZAdd c = false) (trace r).
Proof.
  split; [vm_compute; reflexivity |]. split; [vm_compute; reflexivity |].
  vm_compute. repeat constructor.
Qed.

Lemma no_double_claim_witness :
  let workers := [Sample.worker "a"; Sample.worker "b"; Sample.worker "c"] in
  let w := Plain.world (Plain.calm 5000000000) Sample.scheduled in
  let r := run_pool mem_env [2; 0; 1; 1; 0; 2; 2; 1; 0; 2; 0; 1]%nat
             (getTask <$> workers) w in
  Forall (fun p => is_Some (finished p)) r.1
  /\ (exists i : nat,
        r.1 !! i = Some (Ret (inl Sample.fresh))
        /\ forall j : nat, j <> i -> (j < length workers)%nat ->
             r.1 !! j = Some (Ret (inr ErrNoTaskToConsume)))
  /\ exists z' : list (Z * bytes),
       keyspace r.2 !! taskQueueKey (Plain.queue 0) = Some (VZSet z')
       /\ forall s : Z, (s, "1|0|0|hello") ∉ z'.
Proof.
  destruct (no_double_claim
              [Sample.worker "a"; Sample.worker "b"; Sample.worker "c"]
              (Plain.world (Plain.calm 5000000000) Sample.scheduled)
              (taskQueueKey (Plain.queue 0)) [(5, "1|0|0|hello")] 5
              "1|0|0|hello" Sample.fresh
              [2; 0; 1; 1; 0; 2; 2; 1; 0; 2; 0; 1]%nat) as [Hfair Hone].
  - discriminate.
  - repeat constructor; discriminate.
  - reflexivity.
  - reflexivity.
  - reflexivity.
  - discriminate.
  - reflexivity.
  - assert (Forall (fun p : Prog string (Task string + error) =>
                      is_Some (finished p))
              (run_pool mem_env [2; 0; 1; 1; 0; 2; 2; 1; 0; 2; 0; 1]%nat
                 (getTask <$> [Sample.worker "a"; Sample.worker "b";
                               Sample.worker "c"])
                 (Plain.world (Plain.calm 5000000000) Sample.scheduled)).1)
      as Hfin.
    { apply Hfair. intros j Hj.
      do 3 (destruct j as [| j]; [vm_compute; lia |]). simpl in Hj. lia. }
    split; [exact Hfin |]. exact (Hone Hfin).
Defined.



Lemma consume_clears_marker_witness :
  let w := Plain.world (Sample.failing 5000000000) Sample.scheduled in
  let r := exec mem_env (consume (Plain.queue (-1))) w in
  Exists (fun c => is_ConsumeFunc c = true) (trace r)
  /\ CDel (inProgressTaskKey (Plain.queue (-1))) None ∈ trace r
  /\ keyspace (final r) !! inProgressTaskKey (Plain.queue (-1)) = None.
Proof.
  assert (Exists (fun c : Call string => is_ConsumeFunc c = true)
            (trace (exec mem_env (consume (Plain.queue (-1)))
                      (Plain.world (Sample.failing 5000000000)
                         Sample.scheduled)))) as Hin.
  { vm_compute. do 4 apply Exists_cons_tl. apply Exists_cons_hd. reflexivity. }
  assert (CDel (inProgressTaskKey (Plain.queue (-1))) None
          ∈ trace (exec mem_env (consume (Plain.queue (-1)))
                     (Plain.world (Sample.failing 5000000000)
                        Sample.scheduled))) as Hdel.
  { vm_compute. do 8 apply list_elem_of_further. apply list_elem_of_here. }
  split; [exact Hin |]. split; [exact Hdel |].
  destruct (@consume_clears_marker string Plain.codec) as [_ Hmem].
  exact (Hmem _ _ Hin Hdel).
Defined.

Lemma consume_corrupt_task_witness :
  let w := Plain.world (Plain.calm 5000000000) Sample.corrupt in
  let r := exec mem_env (consume (Plain.queue 0)) w in
  (result r =
     Returns
       (Some (Errorf "failed to get task: %w"
                (Errorf "failed to unmarshal task and permanently lost it: %w"
                   (Foreign "unexpected end of input") []) []))
   /\ Forall (fun c => is_ConsumeFunc c = false /\ is_Del c = false) (trace r))
  /\ keyspace (final r) !! inProgressTaskKey (Plain.queue 0)
     = Some (VString "not a task")
  /\ keyspace (final r) !! taskQueueKey (Plain.queue 0)
     = Some (VZSet (zrem "not a task" [(5, "not a task")])).
Proof.
  destruct (@consume_corrupt_task string Plain.codec) as [Hgen Hmem].
  split.
  - apply (Hgen (World string) mem_env
             (Plain.world (Plain.calm 5000000000) Sample.corrupt)
             (Plain.queue 0) "sha"
             [taskQueueKey (Plain.queue 0); inProgressTaskKey (Plain.queue 0)]
             ["5"] "not a task" "unexpected end of input").
    + vm_compute. do 2 apply list_elem_of_further. apply list_elem_of_here.
    + discriminate.
    + reflexivity.
  - apply (Hmem (Plain.world (Plain.calm 5000000000) Sample.corrupt)
             (Plain.queue 0) [(5, "not a task")] 5 "not a task"
             "unexpected end of input");
      try reflexivity; discriminate.
Defined.

(** Against C7 as the specification words it: an execution time of
    2^53 + 1 seconds is not a [float64], and the task is scheduled under
    the score 2^53, one second early. *)
Lemma ProduceAt_schedules_one_task_counterexample :
  let executeAt : Time := 9007199254740993 * time_Second in
  let r := exec mem_env (ProduceAt (Plain.queue (-1)) "hello" executeAt)
             (Plain.world (Plain.calm 5000000000) ∅) in
  time_Unix executeAt = 9007199254740993
  /\ result r = (1%N, None)
  /\ trace r =
       [CUuid 1%N; CLog Debug "producing task %s %v" None;
        CZAdd "taskqueue:simple:tasks:dummy-consumer"
          {| Score := 9007199254740992;
             Member := {| ID := 1%N; Payload := "hello"; RetryCount := 0;
                          Wait := 0 |} |} None]
  /\ schedule_of (keyspace (final r)) (taskQueueKey (Plain.queue (-1)))
     = [(9007199254740992, "1|0|0|hello")].
Proof. repeat split; vm_compute; reflexivity. Qed.

(** Against C8 as the specification words it: the handler panics on the
    first tick; the in-progress key is deleted, and the panic ends the
    loop there, although the context has not been cancelled and the
    [select] has been reached once only, for the tick. *)
Lemma Consume_exits_on_cancellation_only_counterexample :
  let r := exec mem_env (Consume 10 (Plain.queue (-1)))
             (Plain.world (Sample.panicking 5000000000) Sample.scheduled) in
  result r = Some (Panics "index out of range")
  /\ trace r =
       [CSelect TickerC; CLog Info "consuming task" None;
        CNow 5000000000; CLog Debug "fetching task to execute" None;
        CEvalSha "sha"
          ["taskqueue:simple:tasks:dummy-consumer";
           "taskqueue:simple:workers:worker1:tasks:dummy-consumer"]
          ["5"] (inl (RString "1|0|0|hello"));
        CLog Debug "consuming task" None;
        CConsumeFunc 1%N "hello" (Panics "index out of range");
        CDel "taskqueue:simple:workers:worker1:tasks:dummy-consumer" None]
  /\ filter (fun c => is_Select c = true) (trace r) = [CSelect TickerC].
Proof. repeat split; vm_compute; reflexivity. Qed.



(** ** The scenarios of the specification *)

(** A payload scheduled at second 5 and claimed at second 5 comes back
    with a retry count of 0; the handler fails, and the task is
    rescheduled with a retry count of 1 and a wait of one second, due at
    second 6. *)
Example schedule_claim_fail_reschedule :
  let q := Plain.queue (-1) in
  let w0 := Plain.world (Sample.failing 5000000000) ∅ in
  let r1 := exec mem_env (ProduceAt q "hello" 5000000000) w0 in
  let r2 := exec mem_env (consume q) (final r1) in
  result r1 = (1%N, None)
  /\ schedule_of (keyspace (final r1)) (taskQueueKey q) = [(5, "1|0|0|hello")]
  /\ result r2 =
       Returns
         (Some (Errorf "failed to run consume func: %w" (Foreign "boom") []))
  /\ schedule_of (keyspace (final r2)) (taskQueueKey q)
     = [(6, "1|1|1000000000|hello")]
  /\ keyspace (final r2) !! inProgressTaskKey q = None.
Proof. repeat split; vm_compute; reflexivity. Qed.

(** A claim against an empty schedule answers that no task is due, and
    [consume] returns without an error. *)
Example claim_on_empty_schedule :
  let q := Plain.queue (-1) in
  let w0 := Plain.world (Plain.calm 5000000000) ∅ in
  result (exec mem_env (getTask q) w0) = inr ErrNoTaskToConsume
  /\ result (exec mem_env (consume q) w0) = Returns None.
Proof. split; vm_compute; reflexivity. Qed.

(** Three ticks, then the cancellation.  The handler fails on the first
    tick, the task is rescheduled for later and the next two ticks find
    nothing due; the loop logs the one error and returns on the fourth
    [select]. *)
Example Consume_until_cancelled :
  let o := {| now_at := fun _ => 5000000000;
              uuid_at := fun n => N.of_nat (S n);
              fault_at := fun _ => None;
              handler_at := fun _ _ _ => Returns (Some "boom");
              select_at := fun n => if (n <? 20)%nat then TickerC else CtxDone |} in
  let r := exec mem_env (Consume 10 (Plain.queue (-1)))
             (Plain.world o Sample.scheduled) in
  result r = Some (Returns tt)
  /\ length (filter (fun c => is_Select c = true) (trace r)) = 4%nat
  /\ filter (fun l => l.1.1 = Error) (logs (final r))
     = [(Error, "failed to call consume function",
         Some (Errorf "failed to run consume func: %w" (Foreign "boom") []))].
Proof. repeat split; vm_compute; reflexivity. Qed.

(** * Further properties of the package *)

(** ** One tick, call by call *)

Section Tick.

Context {any : Type} {codec : JSON any}.

Implicit Types (t : TaskQueue) (task : Task any) (now : Time).

(** Case analysis on the optional parts of a trace of [consume]. *)
Ltac split_trace :=
  unfold fetching, clearing in *;
  repeat match goal with
         | H : context [decide (?r = inl StatusOK)] |- _ =>
             destruct (decide (r = inl StatusOK))
         | |- context [decide (?r = inl StatusOK)] =>
             destruct (decide (r = inl StatusOK))
         | H : context [match ?d with Some _ => _ | None => _ end] |- _ =>
             is_var d; destruct d
         | |- context [match ?d with Some _ => _ | None => _ end] =>
             is_var d; destruct d
         end;
  simpl in *.

Ltac each_call :=
  repeat first
    [ apply Forall_nil_2
    | apply Forall_cons_2; [done |]
    | apply Forall_app_2 ].

(** The runs of [consume], with the trace and the result under names. *)
Lemma consume_cases {W : Type} (env : Env any W) (w : W) t :
  exists (tr : list (Call any)) (res : outcome (option error)),
    trace (exec env (consume t) w) = tr
    /\ result (exec env (consume t) w) = res
    /\ consume_run t tr res.
Proof. eexists _, _. split; [done |]. split; [done |]. apply consume_runs. Qed.

(** X1. A tick claims once.  Every run of [consume] starts by reading
    the clock and calling the script once, on the queue's two keys and
    with the clock's Unix seconds in decimal; it calls the script no
    second time, calls the handler at most once, reschedules at most once
    and deletes at most once; and it reschedules only after the handler
    has failed. *)
Theorem consume_one_claim_per_tick (W : Type) (env : Env any W) (w : W) t :
  let tr := trace (exec env (consume t) w) in
  (exists (now : Time) (arg : string) (reply : reply + foreign)
          (rest : list (Call any)),
     tr = CNow now :: CLog Debug "fetching task to execute" None
          :: CEvalSha (consumeScriptSha t)
               [taskQueueKey t; inProgressTaskKey t] [arg] reply
          :: rest
     /\ tonumber arg = Some (time_Unix now)
     /\ Forall (fun c => is_EvalSha c = false) rest)
  /\ (length (filter (fun c => is_ConsumeFunc c = true) tr) <= 1)%nat
  /\ (length (filter (fun c => is_ZAdd c = true) tr) <= 1)%nat
  /\ (length (filter (fun c => is_Del c = true) tr) <= 1)%nat
  /\ (Exists (fun c => is_ZAdd c = true) tr ->
      exists (id : UUID) (payload : any) (e : foreign),
        CConsumeFunc id payload (Returns (Some e)) ∈ tr).
Proof.
  intros tr. subst tr.
  destruct (consume_cases env w t) as (tr & res & -> & _ & Hrun).
  destruct Hrun as [now r err Hc | now r task derr Hc
                   | now r task e now' derr Hc Hex
                   | now r task e now' zerr derr Hc Hex
                   | now r task v derr Hc].
  - split.
    { eexists now, _, r, _. split; [done |].
      split; [apply tonumber_Sprintf_d |]. split_trace; each_call. }
    split_trace; repeat split; cbn; try lia;
      intros Hz; apply Exists_exists in Hz as (c & Hin & Hz);
      set_unfold in Hin; intuition (simplify_eq; eauto).
  - split.
    { eexists now, _, r, _. split; [done |].
      split; [apply tonumber_Sprintf_d |]. split_trace; each_call. }
    split_trace; repeat split; cbn; try lia;
      intros Hz; apply Exists_exists in Hz as (c & Hin & Hz);
      set_unfold in Hin; intuition (simplify_eq; eauto).
  - split.
    { eexists now, _, r, _. split; [done |].
      split; [apply tonumber_Sprintf_d |]. split_trace; each_call. }
    split_trace; repeat split; cbn; try lia;
      intros _; exists (ID task), (Payload task), e; set_unfold; eauto 10.
  - split.
    { eexists now, _, r, _. split; [done |].
      split; [apply tonumber_Sprintf_d |]. split_trace; each_call. }
    split_trace; repeat split; cbn; try lia;
      intros _; exists (ID task), (Payload task), e; set_unfold; eauto 10.
  - split.
    { eexists now, _, r, _. split; [done |].
      split; [apply tonumber_Sprintf_d |]. split_trace; each_call. }
    split_trace; repeat split; cbn; try lia;
      intros Hz; apply Exists_exists in Hz as (c & Hin & Hz);
      set_unfold in Hin; intuition (simplify_eq; eauto).
Qed.

(** X2. Nothing to do.  When the script answers the status that no task
    is due, [consume] returns without an error after one more log line:
    it calls neither the handler nor the store again. *)
Theorem consume_no_task (W : Type) (env : Env any W) (w : W) t
  (sha1 : string) (keys args : list string) :
  let r := exec env (consume t) w in
  CEvalSha sha1 keys args (inl StatusOK) ∈ trace r ->
  result r = Returns None
  /\ exists now : Time,
       trace r =
         [CNow now; CLog Debug "fetching task to execute" None;
          CEvalSha (consumeScriptSha t) [taskQueueKey t; inProgressTaskKey t]
            [Sprintf_d (time_Unix now)] (inl StatusOK);
          CLog Debug "no tasks to execute" None].
Proof.
  intros r. subst r.
  destruct (consume_cases env w t) as (tr & res & -> & -> & Hrun).
  intros Hin.
  assert (forall r : reply + foreign,
            r = inl StatusOK -> claimed r = inr ErrNoTaskToConsume) as Hclaimed.
  { by intros r ->. }
  destruct Hrun as [now r err Hc | now r task derr Hc
                   | now r task e now' derr Hc Hex
                   | now r task e now' zerr derr Hc Hex
                   | now r task v derr Hc];
    (assert (r = inl StatusOK) as Hr
       by (split_trace; set_unfold in Hin; intuition (simplify_eq; eauto)));
    rewrite (Hclaimed r Hr) in Hc; simplify_eq.
  split; [done |]. exists now. unfold fetching. by rewrite decide_True.
Qed.

(** X3. A claim that fails.  When the call of the script fails,
    [consume] returns an error that wraps the store's error and is not
    the error of an empty queue; it calls neither the handler nor the
    store again. *)
Theorem consume_claim_error (W : Type) (env : Env any W) (w : W) t
  (sha1 : string) (keys args : list string) (e : foreign) :
  let r := exec env (consume t) w in
  CEvalSha sha1 keys args (inr e) ∈ trace r ->
  exists err : error,
    result r = Returns (Some err)
    /\ err = Errorf "failed to get task: %w"
               (Errorf "failed to execute consume script: %w" (Foreign e) []) []
    /\ errors_Is err (Foreign e) = true
    /\ errors_Is err ErrNoTaskToConsume = false
    /\ exists now : Time,
         trace r =
           [CNow now; CLog Debug "fetching task to execute" None;
            CEvalSha (consumeScriptSha t)
              [taskQueueKey t; inProgressTaskKey t]
              [Sprintf_d (time_Unix now)] (inr e)].
Proof.
  intros r. subst r.
  destruct (consume_cases env w t) as (tr & res & -> & -> & Hrun).
  intros Hin.
  assert (forall r : reply + foreign,
            r = inr e ->
            claimed r =
              inr (Errorf "failed to execute consume script: %w" (Foreign e) []))
    as Hclaimed.
  { by intros r ->. }
  destruct Hrun as [now r err Hc | now r task derr Hc
                   | now r task e' now' derr Hc Hex
                   | now r task e' now' zerr derr Hc Hex
                   | now r task v' derr Hc];
    (assert (r = inr e) as Hr
       by (split_trace; set_unfold in Hin; intuition (simplify_eq; eauto)));
    rewrite (Hclaimed r Hr) in Hc; simplify_eq.
  eexists. split; [done |]. split; [done |].
  split; [by simpl; repeat case_decide |]. split; [done |].
  exists now. unfold fetching. by rewrite decide_False.
Qed.

(** X4. A reply that is no string.  When the script answers a value that
    is not a string, [consume] returns an error that wraps
    [ErrInvalidTaskType]; it calls neither the handler nor the store
    again. *)
Theorem consume_invalid_reply (W : Type) (env : Env any W) (w : W) t
  (sha1 : string) (keys args : list string) (v : reply) :
  let r := exec env (consume t) w in
  CEvalSha sha1 keys args (inl v) ∈ trace r ->
  (forall s : string, v <> RString s) ->
  exists err : error,
    result r = Returns (Some err)
    /\ errors_Is err ErrInvalidTaskType = true
    /\ exists now : Time,
         trace r =
           [CNow now; CLog Debug "fetching task to execute" None;
            CEvalSha (consumeScriptSha t)
              [taskQueueKey t; inProgressTaskKey t]
              [Sprintf_d (time_Unix now)] (inl v)].
Proof.
  intros r. subst r.
  destruct (consume_cases env w t) as (tr & res & -> & -> & Hrun).
  intros Hin Hv.
  assert (forall r : reply + foreign,
            r = inl v ->
            claimed r =
              inr (Errorf "failed to cast task: %w" ErrInvalidTaskType []))
    as Hclaimed.
  { intros r ->. unfold claimed.
    destruct (decide (v = StatusOK)) as [-> | _]; [by destruct (Hv "OK") |].
    destruct v as [| n | s]; [done | done | by destruct (Hv s)]. }
  assert (inl v <> @inl reply foreign StatusOK) as Hne.
  { intros [= ->]. by destruct (Hv "OK"). }
  destruct Hrun as [now r err Hc | now r task derr Hc
                   | now r task e' now' derr Hc Hex
                   | now r task e' now' zerr derr Hc Hex
                   | now r task v' derr Hc];
    (assert (r = inl v) as Hr
       by (split_trace; set_unfold in Hin; intuition (simplify_eq; eauto)));
    rewrite (Hclaimed r Hr) in Hc; simplify_eq.
  eexists. split; [done |]. split; [done |].
  exists now. unfold fetching. by rewrite decide_False.
Qed.

(** X5. What the handler is given.  When the script answers a string
    that decodes to a task, the handler is called exactly once in the
    tick, with the identifier and the payload of the decoded task,
    however that call ends. *)
Theorem consume_hands_decoded_task (W : Type) (env : Env any W) (w : W) t
  (sha1 : string) (keys args : list string) (s : bytes) task :
  let r := exec env (consume t) w in
  CEvalSha sha1 keys args (inl (RString s)) ∈ trace r ->
  RString s <> StatusOK ->
  json_Unmarshal s = inl task ->
  exists herr : outcome (option foreign),
    filter (fun c => is_ConsumeFunc c = true) (trace r)
    = [CConsumeFunc (ID task) (Payload task) herr].
Proof.
  intros r. subst r.
  destruct (consume_cases env w t) as (tr & res & -> & _ & Hrun).
  intros Hin Hok Hjson.
  assert (forall r : reply + foreign,
            r = inl (RString s) -> claimed r = inl task) as Hclaimed.
  { intros r ->. unfold claimed. rewrite decide_False by done.
    by rewrite Hjson. }
  destruct Hrun as [now r err Hc | now r task' derr Hc
                   | now r task' e' now' derr Hc Hex
                   | now r task' e' now' zerr derr Hc Hex
                   | now r task' v derr Hc];
    (assert (r = inl (RString s)) as Hr
       by (split_trace; set_unfold in Hin; intuition (simplify_eq; eauto)));
    rewrite (Hclaimed r Hr) in Hc; simplify_eq.
  - exists (Returns None). split_trace; by cbn.
  - exists (Returns (Some e')). split_trace; by cbn.
  - exists (Returns (Some e')). split_trace; by cbn.
  - exists (Panics v). split_trace; by cbn.
Qed.

End Tick.

(** ** The backoff, failure after failure *)

Section Backoff.

Context {any : Type}.

Implicit Types (t : TaskQueue) (task : Task any) (now : Time).

(** X6. Exponential backoff.  A fresh task that keeps failing is handed
    back to the store, on failure number [n+1], with a retry count of
    [n+1] and a wait of [2^n] seconds, due [2^n] seconds after the clock
    reading of the reschedule, in Unix seconds as a [float64]; this holds
    for the first 34 failures, as long as the retry ceiling allows
    them. *)
Theorem backoff_is_exponential (W : Type) (env : Env any W) (w : W) t task
  (n : nat) :
  RetryCount task = 0 -> Wait task = 0 -> (n <= 33)%nat ->
  maxRetries t < 0 \/ Z.of_nat n < maxRetries t ->
  exists (now : Time) (zerr : option foreign),
    trace (exec env (produceRetry t (lifetime task n)) w) =
      [CNow now;
       CZAdd (taskQueueKey t)
         {| Score := float64 (time_Unix (now + 2 ^ Z.of_nat n * time_Second));
            Member := {| ID := ID task; Payload := Payload task;
                         RetryCount := Z.of_nat n + 1;
                         Wait := 2 ^ Z.of_nat n * time_Second |} |} zerr].
Proof.
  intros Hrc Hw Hn Hceil.
  assert (RetryCount (lifetime task n) = Z.of_nat n) as Hcount.
  { apply lifetime_RetryCount; [done |]. unfold max_int64. lia. }
  destruct (produceRetry_run env w t (lifetime task n))
    as (now & w1 & _ & [[Hc _] | [_ (zerr & w2 & ->)]]).
  { unfold exceeded in Hc. rewrite Hcount in Hc. lia. }
  exists now, zerr. unfold trace. simpl. do 3 f_equal.
  pose proof (lifetime_Wait task n Hw Hn) as Hwait.
  rewrite lifetime_S in Hwait. simpl in Hwait.
  unfold retryTask, time_Add. rewrite Hwait. f_equal. f_equal.
  - apply lifetime_ID.
  - apply lifetime_Payload.
  - rewrite Hcount. apply wrap64_int64.
    unfold is_int64, min_int64, max_int64. lia.
Qed.

(** X7. Not again in the same second.  A task below the retry ceiling
    whose wait is not positive, or at least half a second with a double
    that fits a 64-bit integer, is rescheduled for a Unix second later
    than the one of the clock reading, and that second is its score as
    long as it is at most [2^53] in magnitude: the claim of the same
    second cannot hand the task out again. *)
Theorem reschedule_is_later (W : Type) (env : Env any W) (w : W) t task :
  maxRetries t < 0 \/ RetryCount task < maxRetries t ->
  Wait task <= 0 \/ time_Second <= 2 * Wait task <= max_int64 ->
  exists (now : Time) (zerr : option foreign) (m : redis_Z any),
    trace (exec env (produceRetry t task) w) =
      [CNow now; CZAdd (taskQueueKey t) m zerr]
    /\ Score m = float64 (time_Unix (time_Add now (wait task)))
    /\ time_Unix now + 1 <= time_Unix (time_Add now (wait task))
    /\ (Z.abs (time_Unix (time_Add now (wait task))) <= 2 ^ 53 ->
        time_Unix now + 1 <= Score m).
Proof.
  intros Hceil Hwait.
  destruct (produceRetry_run env w t task)
    as (now & w1 & _ & [[Hc _] | [_ (zerr & w2 & ->)]]).
  { unfold exceeded in Hc. lia. }
  eexists now, zerr, _. split; [done |]. simpl. split; [done |].
  assert (time_Second <= wait task) as Hw.
  { destruct Hwait as [H0 | [H1 H2]].
    - by rewrite wait_nonpositive.
    - unfold time_Second in *. rewrite wait_doubles; lia. }
  assert (time_Unix now + 1 <= time_Unix (time_Add now (wait task))) as Hlater.
  { unfold time_Unix, time_Add, time_Second in *.
    replace (now / 1000000000 + 1) with ((now + 1 * 1000000000) / 1000000000)
      by (rewrite Z.div_add; lia).
    apply Z.div_le_mono; lia. }
  split; [done |]. intros Hfit. by rewrite float64_exact.
Qed.

End Backoff.

(** ** Building a queue *)

Section Keys.

Lemma append_inj (s a b : string) : s +:+ a = s +:+ b -> a = b.
Proof. induction s as [| c s IH]; simpl; [done |]. intros [= H]. auto. Qed.

Lemma append_assoc (a b c : string) : (a +:+ b) +:+ c = a +:+ (b +:+ c).
Proof.
  induction a as [| x a IH]; [done |].
  change (String x ((a +:+ b) +:+ c) = String x (a +:+ (b +:+ c))).
  by rewrite IH.
Qed.

Lemma append_colon_inj (a b x y : string) :
  no_colon a = true -> no_colon b = true ->
  a +:+ String ":" x = b +:+ String ":" y -> a = b /\ x = y.
Proof.
  revert b. induction a as [| c a IH]; intros [| d b]; simpl.
  - by intros _ _ [= ->].
  - intros _ [Hd _]%andb_true_iff [= <- _]. done.
  - intros [Hc _]%andb_true_iff _ [= -> _]. done.
  - intros [_ Ha]%andb_true_iff [_ Hb]%andb_true_iff [= -> H].
    destruct (IH b Ha Hb H) as [-> ->]. done.
Qed.

Context {W : Type}.
Variable setDefaults : Options -> Options.
Variable path : string.
Variable readFile : string -> W -> (bytes + foreign) * W.
Variable scriptLoad : string -> W -> (string + foreign) * W.

Local Abbreviation build := (NewTaskQueue setDefaults path readFile scriptLoad).

(** The keys of a queue that was built, spelt out. *)
Lemma NewTaskQueue_keys (options : Options) (w w' : W) (t : TaskQueue) :
  build options w = (inl t, w') ->
  taskQueueKey t =
    "taskqueue:" +:+ Namespace (setDefaults options) +:+ ":tasks:"
    +:+ QueueKey (setDefaults options)
  /\ inProgressTaskKey t =
       "taskqueue:" +:+ Namespace (setDefaults options) +:+ ":workers:"
       +:+ WorkerID (setDefaults options) +:+ ":tasks:"
       +:+ QueueKey (setDefaults options).
Proof.
  unfold NewTaskQueue.
  destruct (readFile path w) as [[data | e] w1]; [| done].
  destruct (scriptLoad data w1) as [[sha | e] w2]; [| done].
  by intros [= <- <-].
Qed.

(** X8. What the constructor returns.  [NewTaskQueue] reads the script
    file and loads its contents into the store, in this order.  It fails,
    with an error that wraps the cause, when the file cannot be read, in
    which case the store is not called, or when the store refuses the
    script.  Otherwise the queue carries the hash that the store
    returned, the retry ceiling and the timeout of the options after
    their defaults, and two keys that differ. *)
Theorem NewTaskQueue_builds (options : Options) (w : W) :
  match readFile path w with
  | (inr e, w1) =>
      build options w =
        (inr (Errorf "failed to read consume script file: %w" (Foreign e) []),
         w1)
  | (inl data, w1) =>
      match scriptLoad data w1 with
      | (inr e, w2) =>
          build options w =
            (inr (Errorf "failed to load consume script file into redis: %w"
                    (Foreign e) []), w2)
      | (inl sha, w2) =>
          exists t : TaskQueue,
            build options w = (inl t, w2)
            /\ consumeScriptSha t = sha
            /\ maxRetries t = MaxRetries (setDefaults options)
            /\ operationTimeout t = OperationTimeout (setDefaults options)
            /\ inProgressTaskKey t <> taskQueueKey t
      end
  end.
Proof.
  unfold NewTaskQueue.
  destruct (readFile path w) as [[data | e] w1]; [| done].
  destruct (scriptLoad data w1) as [[sha | e] w2]; [| done].
  eexists. split; [done |]. simpl. repeat split.
  intros H. apply append_inj in H.
  apply (append_inj (Namespace (setDefaults options))) in H. discriminate.
Qed.

(** X9. Keys that cannot collide.  For two queues built from options
    whose namespaces have no colon in them: equal schedule keys mean the
    same namespace and the same queue name, and the schedule key of the
    one is never the in-progress key of the other.  When the worker
    names have no colon either, equal in-progress keys mean the same
    namespace, worker and queue name. *)
Theorem NewTaskQueue_keys_apart (o1 o2 : Options) (w1 w1' w2 w2' : W)
  (t1 t2 : TaskQueue) :
  build o1 w1 = (inl t1, w1') ->
  build o2 w2 = (inl t2, w2') ->
  no_colon (Namespace (setDefaults o1)) = true ->
  no_colon (Namespace (setDefaults o2)) = true ->
  (taskQueueKey t1 = taskQueueKey t2 ->
   Namespace (setDefaults o1) = Namespace (setDefaults o2)
   /\ QueueKey (setDefaults o1) = QueueKey (setDefaults o2))
  /\ taskQueueKey t1 <> inProgressTaskKey t2
  /\ (no_colon (WorkerID (setDefaults o1)) = true ->
      no_colon (WorkerID (setDefaults o2)) = true ->
      inProgressTaskKey t1 = inProgressTaskKey t2 ->
      Namespace (setDefaults o1) = Namespace (setDefaults o2)
      /\ WorkerID (setDefaults o1) = WorkerID (setDefaults o2)
      /\ QueueKey (setDefaults o1) = QueueKey (setDefaults o2)).
Proof.
  intros [Hq1 Hp1]%NewTaskQueue_keys [Hq2 Hp2]%NewTaskQueue_keys Hn1 Hn2.
  rewrite Hq1, Hq2, Hp1, Hp2. clear Hq1 Hq2 Hp1 Hp2.
  split; [| split].
  - intros H%append_inj.
    apply (append_colon_inj _ _ _ _ Hn1 Hn2) in H as [-> H].
    split; [done |]. by apply (append_inj "tasks:") in H.
  - intros H%append_inj.
    by apply (append_colon_inj _ _ _ _ Hn1 Hn2) in H as [_ H].
  - intros Hw1 Hw2 H%append_inj.
    apply (append_colon_inj _ _ _ _ Hn1 Hn2) in H as [-> H].
    apply (append_inj "workers:") in H.
    apply (append_colon_inj _ _ _ _ Hw1 Hw2) in H as [-> H].
    split; [done |]. split; [done |]. by apply (append_inj "tasks:") in H.
Qed.

(** X10. Keys that do collide.  Nothing in the constructor keeps a colon
    out of a name, and a namespace that ends in [:workers:] and a worker
    name makes the schedule key of its queue the in-progress key of that
    worker in the shorter namespace. *)
Theorem NewTaskQueue_keys_collide (o1 o2 : Options) (w1 w1' w2 w2' : W)
  (t1 t2 : TaskQueue) :
  build o1 w1 = (inl t1, w1') ->
  build o2 w2 = (inl t2, w2') ->
  Namespace (setDefaults o1) =
    Namespace (setDefaults o2) +:+ ":workers:" +:+ WorkerID (setDefaults o2) ->
  QueueKey (setDefaults o1) = QueueKey (setDefaults o2) ->
  taskQueueKey t1 = inProgressTaskKey t2.
Proof.
  intros [Hq1 _]%NewTaskQueue_keys [_ Hp2]%NewTaskQueue_keys Hns Hq.
  rewrite Hq1, Hp2, Hns, Hq. f_equal.
  rewrite !append_assoc. done.
Qed.

End Keys.

(** ** The example program *)

Ltac count_calls :=
  repeat first [ rewrite filter_cons_True by done
               | rewrite filter_cons_False by done ];
  simpl.

Section Producer.

Implicit Types (t : TaskQueue).

Lemma produce_runs {W : Type} (env : Env Simple.Payload W) t (fuel : nat) :
  forall (w : W) (id : Z),
    let r := exec env (Simple.produce fuel t id) w in
    (0 <= id -> id + Z.of_nat fuel <= max_int64 ->
     enqueued (trace r)
     = (fun i : nat => Sprintf_d (id + Z.of_nat i))
         <$> seq 0 (length (enqueued (trace r))))
    /\ (result r = Some tt <-> CSelect CtxDone ∈ trace r)
    /\ (result r = None ->
        length (filter (fun c => is_Select c = true) (trace r)) = fuel)
    /\ Forall (fun a : Time * redis_Z Simple.Payload =>
                 Score a.2 = float64 (time_Unix a.1)
                 /\ RetryCount (Member a.2) = 0 /\ Wait (Member a.2) = 0)
         (attempts (trace r))
    /\ length (attempts (trace r))
       = length (filter (fun c => is_Tick c = true) (trace r))
    /\ length (filter (fun c => is_ZAdd c = true) (trace r))
       = length (filter (fun c => is_Tick c = true) (trace r)).
Proof.
  induction fuel as [| fuel IH]; intros w id r; subst r.
  { simpl. repeat split; try done. by intros ?%elem_of_nil. }
  simpl. unfold call. simpl.
  destruct (env _ select w) as [[|] w1]; simpl.
  - destruct (env _ (logger _ _ _) w1) as [[] w2]. simpl.
    destruct (env _ time_Now w2) as [now w3]. simpl.
    destruct (env _ uuid_New w3) as [uuid w4]. simpl.
    destruct (env _ (logger _ _ _) w4) as [[] w5]. simpl.
    destruct (env _ (redis_ZAdd _ _) w5) as [[e |] w6]; simpl.
    + destruct (env _ (logger _ _ _) w6) as [[] w7]. simpl.
      specialize (IH w7 id).
      destruct (exec env (Simple.produce fuel t id) w7) as [[out w8] rest].
      unfold trace, result in *. simpl in *.
      destruct IH as (IH1 & IH2 & IH3 & IH4 & IH5 & IH6).
      split; [| split; [| split; [| split; [| split]]]].
      * intros Hid Hmax. apply IH1; lia.
      * rewrite IH2. set_unfold. intuition simplify_eq.
      * intros Hout. rewrite !filter_cons_False by done. by rewrite IH3.
      * by apply Forall_cons_2.
      * rewrite !filter_cons_False by done. by rewrite IH5.
      * count_calls. by rewrite IH6.
    + destruct (env _ (logger _ _ _) w6) as [[] w7]. simpl.
      specialize (IH w7 (add64 id 1)).
      destruct (exec env (Simple.produce fuel t (add64 id 1)) w7)
        as [[out w8] rest].
      unfold trace, result in *. simpl in *.
      destruct IH as (IH1 & IH2 & IH3 & IH4 & IH5 & IH6).
      split; [| split; [| split; [| split; [| split]]]].
      * intros Hid Hmax.
        assert (add64 id 1 = id + 1) as Hadd.
        { apply wrap64_int64.
          unfold is_int64, min_int64, max_int64 in *. lia. }
        rewrite Hadd in IH1. specialize (IH1 ltac:(lia) ltac:(lia)).
        rewrite Z.add_0_r. f_equal. rewrite IH1 at 1.
        rewrite <- fmap_S_seq, <- list_fmap_compose.
        apply list_fmap_ext. intros _ i _. simpl. f_equal. lia.
      * rewrite IH2. set_unfold. intuition simplify_eq.
      * intros Hout. rewrite !filter_cons_False by done. by rewrite IH3.
      * by apply Forall_cons_2.
      * rewrite !filter_cons_False by done. by rewrite IH5.
      * count_calls. by rewrite IH6.
  - destruct (env _ (logger _ _ _) w1) as [[] w2]. simpl.
    unfold trace, result. simpl.
    split; [done |]. split; [| split; [done | split; [done | split; done]]].
    split; [| done]. intros _. set_unfold. eauto.
Qed.

(** X11. Numbered without a gap.  The payloads that [runProducer] gets
    into the schedule carry the numbers 0, 1, 2, ... in decimal, in this
    order and without a gap, whatever the store refuses in between: the
    counter moves only when the store has accepted the task.  (The
    counter is a 64-bit integer; the statement is for runs of fewer than
    2^63 ticks.) *)
Theorem runProducer_numbers (W : Type) (env : Env Simple.Payload W) (w : W)
  t (fuel : nat) :
  Z.of_nat fuel <= max_int64 ->
  let tr := trace (exec env (Simple.runProducer fuel t) w) in
  enqueued tr
  = (fun i : nat => Sprintf_d (Z.of_nat i)) <$> seq 0 (length (enqueued tr)).
Proof.
  intros Hfuel tr. subst tr.
  destruct (produce_runs env t fuel w 0) as (H & _).
  unfold Simple.runProducer. rewrite H at 1 by lia. done.
Qed.

(** X12. One fresh task per tick.  Each tick of [runProducer] makes
    exactly one attempt to schedule a task, of retry count 0 and wait 0,
    due at the Unix second of the clock reading taken in that tick, as a
    [float64]. *)
Theorem runProducer_attempts (W : Type) (env : Env Simple.Payload W) (w : W)
  t (fuel : nat) :
  let tr := trace (exec env (Simple.runProducer fuel t) w) in
  count is_ZAdd tr = count is_Tick tr
  /\ length (attempts tr) = count is_Tick tr
  /\ Forall (fun a : Time * redis_Z Simple.Payload =>
               Score a.2 = float64 (time_Unix a.1)
               /\ RetryCount (Member a.2) = 0 /\ Wait (Member a.2) = 0)
       (attempts tr).
Proof.
  intros tr. subst tr.
  destruct (produce_runs env t fuel w 0) as (_ & _ & _ & H4 & H5 & H6).
  unfold Simple.runProducer, count. done.
Qed.

(** X13. The producer stops on cancellation only.  [runProducer] returns
    exactly when its [select] has answered with the cancellation; a store
    that refuses a task does not end the loop, which has then gone
    through as many rounds as it had fuel. *)
Theorem runProducer_stops_on_cancellation_only (W : Type)
  (env : Env Simple.Payload W) (w : W) t (fuel : nat) :
  let r := exec env (Simple.runProducer fuel t) w in
  (result r = Some tt <-> CSelect CtxDone ∈ trace r)
  /\ (result r = None -> count is_Select (trace r) = fuel).
Proof.
  intros r. subst r.
  destruct (produce_runs env t fuel w 0) as (_ & H1 & H2 & _). done.
Qed.

End Producer.


Section Consumer.

Context {codec : JSON Simple.Payload}.
Implicit Types (t : TaskQueue).

(** Running a program whose handler has been plugged in, one part after
    the other. *)
Lemma exec_with_ConsumeFunc_bind {any W A B : Type} (env : Env any W)
  (h : UUID -> any -> Prog any (option foreign))
  (p : Prog any A) (f : A -> Prog any B) :
  forall w : W,
    exec env (with_ConsumeFunc h (bind p f)) w
    = let '(a, w1, tr1) := exec env (with_ConsumeFunc h p) w in
      let '(b, w2, tr2) := exec env (with_ConsumeFunc h (f a)) w1 in
      (b, w2, tr1 ++ tr2).
Proof.
  induction p as [a | X c k IH]; intros w.
  { simpl. by destruct (exec env (with_ConsumeFunc h (f a)) w) as [[b w2] tr2]. }
  destruct c as [| | | | | id payload | |]; simpl;
    try (match goal with
         | |- context [env ?X ?c w] => destruct (env X c w) as [x w1]
         end;
         rewrite IH;
         destruct (exec env (with_ConsumeFunc h (k x)) w1) as [[a w2] tr1];
         by destruct (exec env (with_ConsumeFunc h (f a)) w2) as [[b w3] tr2]).
  rewrite !exec_bind.
  destruct (exec env (h id payload) w) as [[x w1] tr0].
  rewrite IH.
  destruct (exec env (with_ConsumeFunc h (k (Returns x))) w1)
    as [[a' w2] tr1].
  destruct (exec env (with_ConsumeFunc h (f a')) w2) as [[b w3] tr2].
  by rewrite app_assoc.
Qed.

(** [getTask] does not call the handler. *)
Lemma exec_with_ConsumeFunc_getTask {W : Type} (env : Env Simple.Payload W)
  (h : UUID -> Simple.Payload -> Prog Simple.Payload (option foreign)) t :
  forall w : W,
    exec env (with_ConsumeFunc h (getTask t)) w = exec env (getTask t) w.
Proof.
  intros w. unfold getTask, call. simpl.
  destruct (env _ time_Now w) as [now w1]. simpl.
  destruct (env _ (logger _ _ _) w1) as [[] w2]. simpl.
  destruct (env _ (redis_EvalSha _ _ _) w2) as [r w3]. simpl.
  destruct r as [taskInterface | e]; simpl; [| done].
  destruct (decide (taskInterface = StatusOK)) as [-> | Hne]; simpl.
  - by destruct (env _ (logger _ _ _) w3) as [[] w4].
  - destruct taskInterface as [| int | taskStr]; simpl; try done.
    by destruct (json_Unmarshal taskStr).
Qed.

(** One tick of [runConsumer]: nothing claimed, or a task handled and its
    in-progress entry cleared. *)
Lemma handled_consume_run {W : Type} (env : Env Simple.Payload W) (w : W) t :
  exists (now : Time) (r : reply + foreign) (w' : W),
    match claimed r with
    | inr err =>
        exec env (with_ConsumeFunc Simple.handler (consume t)) w
        = (Returns (if errors_Is err ErrNoTaskToConsume then None
                    else Some (Errorf "failed to get task: %w" err [])),
           w', fetching t now r)
    | inl task =>
        exists derr : option foreign,
          exec env (with_ConsumeFunc Simple.handler (consume t)) w
          = (Returns None, w',
             fetching t now r ++ handling ++ clearing t derr)
    end.
Proof.
  unfold consume. rewrite exec_with_ConsumeFunc_bind.
  rewrite exec_with_ConsumeFunc_getTask.
  destruct (getTask_run env w t) as (now & r & w1 & ->).
  exists now, r.
  destruct (claimed r) as [task | err].
  - unfold defer, removeInProgressTask, Simple.handler, call, handling,
      clearing. simpl.
    destruct (env _ (logger _ _ _) w1) as [[] w2]. simpl.
    destruct (env _ (logger _ _ _) w2) as [[] w3]. simpl.
    destruct (env _ (logger _ _ _) w3) as [[] w4]. simpl.
    destruct (env _ (redis_Del _) w4) as [derr w5]. simpl.
    destruct derr as [e |]; simpl.
    + destruct (env _ (logger _ _ _) w5) as [[] w6]. simpl.
      by exists w6, (Some e).
    + by exists w5, None.
  - exists w1. destruct (errors_Is err ErrNoTaskToConsume); simpl;
      by rewrite app_nil_r.
Qed.

(** What one tick of [runConsumer] leaves in the trace. *)
Lemma handled_consume_calls {W : Type} (env : Env Simple.Payload W) (w : W) t :
  let r := exec env (with_ConsumeFunc Simple.handler (consume t)) w in
  Forall (fun c => is_ZAdd c = false /\ is_Select c = false
                   /\ forall msg err, c <> CLog Error msg err) (trace r)
  /\ length (filter (fun c => is_Del c = true) (trace r))
     = length (filter (fun c => is_Handled c = true) (trace r))
  /\ length (filter (fun c => is_EvalSha c = true) (trace r)) = 1%nat
  /\ (exists res : option error, result r = Returns res)
  /\ (forall err, result r = Returns (Some err) ->
        exists cause, err = Errorf "failed to get task: %w" cause []
                      /\ errors_Is cause ErrNoTaskToConsume = false).
Proof.
  intros r. subst r.
  destruct (handled_consume_run env w t) as (now & r & w' & H).
  destruct (claimed r) as [task | err] eqn:Hr.
  - destruct H as (derr & ->). unfold result, trace. simpl.
    unfold fetching, handling, clearing.
    destruct (decide (r = inl StatusOK)) as [-> | _]; [by simpl in Hr |].
    destruct derr; simpl; repeat split;
      repeat (apply Forall_cons_2; [by repeat split |]); try done;
      by eexists.
  - rewrite H. unfold result, trace. simpl. unfold fetching.
    destruct (decide (r = inl StatusOK)); simpl; repeat split;
      repeat (apply Forall_cons_2; [by repeat split |]); try done;
      try (by eexists).
    all: intros err'; destruct (errors_Is err ErrNoTaskToConsume) eqn:He;
      intros [= <-]; eauto.
Qed.

(** X14. The example consumer handles each task once.  [runConsumer]
    asks the store for a task once per tick and never puts a task back
    into the schedule: its handler cannot fail; the in-progress entry is
    deleted once for every task handled; the only errors it logs are
    failed claims; it returns exactly when the cancellation has been
    selected, and no panic ends it. *)
Theorem runConsumer_handles_once (W : Type) (env : Env Simple.Payload W)
  (w : W) t (fuel : nat) :
  let r := exec env (Simple.runConsumer fuel t) w in
  Forall (fun c => is_ZAdd c = false) (trace r)
  /\ count is_EvalSha (trace r) = count is_Tick (trace r)
  /\ count is_Del (trace r) = count is_Handled (trace r)
  /\ (forall msg err, CLog Error msg err ∈ trace r ->
        exists cause,
          err = Some (Errorf "failed to get task: %w" cause [])
          /\ errors_Is cause ErrNoTaskToConsume = false)
  /\ (result r = Some (Returns tt) <-> CSelect CtxDone ∈ trace r)
  /\ (forall v : foreign, result r <> Some (Panics v)).
Proof.
  intros r. subst r. unfold Simple.runConsumer, call, count. simpl.
  destruct (env _ (logger _ _ _) w) as [[] w0]. simpl.
  assert (forall w : W,
    let r := exec env (with_ConsumeFunc Simple.handler (Consume fuel t)) w in
    Forall (fun c => is_ZAdd c = false) (trace r)
    /\ length (filter (fun c => is_EvalSha c = true) (trace r))
       = length (filter (fun c => is_Tick c = true) (trace r))
    /\ length (filter (fun c => is_Del c = true) (trace r))
       = length (filter (fun c => is_Handled c = true) (trace r))
    /\ (forall msg err, CLog Error msg err ∈ trace r ->
          exists cause,
            err = Some (Errorf "failed to get task: %w" cause [])
            /\ errors_Is cause ErrNoTaskToConsume = false)
    /\ (result r = Some (Returns tt) <-> CSelect CtxDone ∈ trace r)
    /\ (forall v : foreign, result r <> Some (Panics v))) as Hloop.
  { clear w w0. induction fuel as [| fuel IH]; intros w r; subst r.
    { simpl. repeat split; try done.
      - by intros ? ? ?%elem_of_nil.
      - by intros ?%elem_of_nil. }
    Opaque consume. simpl. unfold call. simpl.
    destruct (env _ select w) as [[|] w1]; simpl.
    - destruct (env _ (logger _ _ _) w1) as [[] w2]. simpl.
      rewrite exec_with_ConsumeFunc_bind.
      pose proof (handled_consume_calls env w2 t) as Htick. simpl in Htick.
      destruct (exec env (with_ConsumeFunc Simple.handler (consume t)) w2)
        as [[err w3] tick].
      unfold result, trace in Htick. simpl in Htick.
      destruct Htick as (T1 & T2 & T3 & [res ->] & T4). simpl.
      rename res into err.
      assert (exists w4 lg,
        exec env (with_ConsumeFunc Simple.handler
          (bind
             match err with
             | Some err =>
                 Vis (logger Error "failed to call consume function" (Some err))
                   Ret
             | None => Ret tt
             end (fun _ => Consume fuel t))) w3
        = (let '(b, w0, tr2) :=
             exec env (with_ConsumeFunc Simple.handler (Consume fuel t)) w4 in
           (b, w0, lg ++ tr2))
        /\ (lg = [] \/ exists cause,
              lg = [CLog Error "failed to call consume function"
                      (Some (Errorf "failed to get task: %w" cause []))]
              /\ errors_Is cause ErrNoTaskToConsume = false))
        as (w4 & lg & -> & Hlg).
      { destruct err as [err |]; simpl.
        - destruct (T4 err eq_refl) as (cause & -> & Hc).
          destruct (env _ (logger _ _ _) w3) as [[] w4].
          exists w4. eexists. split; [| right; eauto].
          by destruct (exec env _ w4) as [[b w5] tr2].
        - exists w3, []. split; [| by left].
          by destruct (exec env _ w3) as [[b w5] tr2]. }
      specialize (IH w4).
      destruct (exec env (with_ConsumeFunc Simple.handler (Consume fuel t)) w4)
        as [[out w5] rest].
      unfold result, trace in *. simpl in *.
      destruct IH as (I1 & I2 & I3 & I4 & I5 & I6).
      split; [| split; [| split; [| split; [| split; [| done]]]]].
      + apply Forall_cons_2; [done |]. apply Forall_cons_2; [done |].
        rewrite !Forall_app. repeat split; [| | done].
        * eapply Forall_impl; [exact T1 |]. by intros c (? & _).
        * destruct Hlg as [-> | (cause & -> & _)]; by repeat constructor.
      + count_calls. rewrite !filter_app, !length_app, T3, I2.
        assert (filter (fun c => is_Tick c = true) tick = []) as ->.
        { clear -T1. induction T1 as [| c l (_ & Hc & _) _ IH]; [done |].
          rewrite filter_cons_False; [done |].
          destruct c as [| | | | | | | []]; simpl in *; congruence. }
        destruct Hlg as [-> | (cause & -> & _)]; simpl; lia.
      + count_calls. rewrite !filter_app, !length_app, T2, I3.
        destruct Hlg as [-> | (cause & -> & _)]; simpl; lia.
      + intros msg e. rewrite elem_of_cons, elem_of_cons, !elem_of_app.
        intros [? | [? | [Hin | [Hin | Hin]]]]; try done.
        * rewrite Forall_forall in T1. destruct (T1 _ Hin) as (_ & _ & Hno).
          by destruct (Hno msg e).
        * destruct Hlg as [-> | (cause & -> & Hc)];
            [by apply elem_of_nil in Hin |].
          apply list_elem_of_singleton in Hin. simplify_eq. eauto.
        * eauto.
      + rewrite I5, elem_of_cons, elem_of_cons, !elem_of_app.
        split; [by eauto 6 |].
        intros [? | [? | [Hin | [Hin | Hin]]]]; try done.
        * rewrite Forall_forall in T1. by destruct (T1 _ Hin) as (_ & ? & _).
        * destruct Hlg as [-> | (cause & -> & Hc)];
            [by apply elem_of_nil in Hin |].
          by apply list_elem_of_singleton in Hin.
    - destruct (env _ (logger _ _ _) w1) as [[] w2]. simpl.
      unfold result, trace. simpl.
      split; [| split; [| split; [| split; [| split; [| done]]]]]; try done.
      + by repeat constructor.
      + intros msg err. set_unfold. intuition simplify_eq.
      + split; [| done]. intros _. set_unfold. eauto.
    Transparent consume. }
  specialize (Hloop w0).
  destruct (exec env (with_ConsumeFunc Simple.handler (Consume fuel t)) w0)
    as [[out w1] rest].
  unfold result, trace in *. simpl in *.
  destruct Hloop as (I1 & I2 & I3 & I4 & I5 & I6).
  split; [| split; [| split; [| split; [| split; [| done]]]]].
  - by apply Forall_cons_2.
  - by count_calls.
  - by count_calls.
  - intros msg err. rewrite elem_of_cons. intros [? | ?]; [done | eauto].
  - rewrite I5, elem_of_cons. split; [by eauto |]. by intros [? | ?].
Qed.

End Consumer.

(** ** The loop as a whole *)


Section Loop.

Context {any : Type} {codec : JSON any}.
Implicit Types (t : TaskQueue) (tr : list (Call any)).

Lemma count_app (f : Call any -> bool) tr1 tr2 :
  count f (tr1 ++ tr2) = (count f tr1 + count f tr2)%nat.
Proof. unfold count. by rewrite filter_app, length_app. Qed.

Lemma count_cons (f : Call any -> bool) c tr :
  count f (c :: tr) = ((if f c then 1 else 0) + count f tr)%nat.
Proof.
  unfold count. destruct (f c) eqn:Hc.
  - by rewrite filter_cons_True.
  - rewrite filter_cons_False; [done |]. by rewrite Hc.
Qed.

(** The calls of one tick, counted. *)
Lemma consume_run_counts t tr res :
  consume_run t tr res ->
  count is_EvalSha tr = 1%nat
  /\ count is_Select tr = 0%nat
  /\ count is_Del tr = count is_ConsumeFunc tr
  /\ (count is_ConsumeFunc tr <= 1)%nat
  /\ (count is_ZAdd tr <= count is_Failure tr)%nat
  /\ count is_Tick tr = 0%nat
  /\ count is_Report tr = 0%nat
  /\ (count is_Failure tr
      <= match res with
         | Returns res => count is_Report (@logged any res)
         | Panics _ => 0
         end)%nat.
Proof.
  intros Hrun.
  destruct Hrun as [now r err Hr | now r task derr Hr
                   | now r task e now' derr Hr Hex
                   | now r task e now' zerr derr Hr Hex
                   | now r task v derr Hr];
    unfold fetching, clearing;
    destruct (decide (r = inl StatusOK)) as [-> | _];
    try (by simpl in Hr);
    try destruct derr; try destruct zerr;
    try destruct (errors_Is err ErrNoTaskToConsume);
    vm_compute; repeat split; lia.
Qed.

(** X15. The books of the loop.  Over any run of [Consume], with any
    handler and any store: the script is called once per tick; the
    in-progress entry is deleted once for every task handed to the
    handler, whether the handler succeeded, failed or panicked; a task is
    put back into the schedule only after the handler has returned an
    error, at most once per error; and every error that the handler
    returned is reported in the log. *)
Theorem Consume_accounts (W : Type) (env : Env any W) (w : W) t
  (fuel : nat) :
  let tr := trace (exec env (Consume fuel t) w) in
  count is_EvalSha tr = count is_Tick tr
  /\ count is_Del tr = count is_ConsumeFunc tr
  /\ (count is_ConsumeFunc tr <= count is_Tick tr)%nat
  /\ (count is_ZAdd tr <= count is_Failure tr)%nat
  /\ (count is_Failure tr <= count is_Report tr)%nat.
Proof.
  intros tr. subst tr.
  pose proof (Consume_runs env w t fuel) as Hrun.
  induction Hrun as [| fuel | fuel tr res rest out Htick _ IH
                    | fuel tr v Htick].
  - vm_compute. repeat split; lia.
  - vm_compute. repeat split; lia.
  - apply consume_run_counts in Htick.
    destruct Htick as (T1 & T2 & T3 & T4 & T5 & T6 & T7 & T8).
    destruct IH as (I1 & I2 & I3 & I4 & I5).
    rewrite !count_cons, !count_app. simpl.
    assert (forall f : Call any -> bool,
              (forall lvl msg err, f (CLog lvl msg err) = false) ->
              count f (@logged any res) = 0%nat) as HL.
    { intros f Hf. destruct res; [| done]. simpl.
      by rewrite count_cons, Hf. }
    rewrite (HL is_EvalSha), (HL is_Del), (HL is_ConsumeFunc), (HL is_ZAdd),
      (HL is_Failure), (HL is_Tick) by done.
    lia.
  - apply consume_run_counts in Htick.
    destruct Htick as (T1 & T2 & T3 & T4 & T5 & T6 & T7 & T8).
    rewrite !count_cons. simpl. lia.
Qed.

End Loop.

(** * The further properties at work *)

Lemma consume_no_task_witness :
  let r := exec (Mock.replying (inl StatusOK)) (consume (Plain.queue (-1))) 0%nat in
  result r = Returns None /\ length (trace r) = 4%nat.
Proof.
  destruct (consume_no_task nat (Mock.replying (inl StatusOK)) 0%nat
              (Plain.queue (-1)) "sha"
              [taskQueueKey (Plain.queue (-1));
               inProgressTaskKey (Plain.queue (-1))] ["5"])
    as (Hres & now & Htr).
  { vm_compute. do 2 apply list_elem_of_further. apply list_elem_of_here. }
  split; [exact Hres |]. rewrite Htr. reflexivity.
Defined.

Lemma consume_claim_error_witness :
  let r := exec (Mock.replying (inr "i/o timeout")) (consume (Plain.queue (-1)))
             0%nat in
  result r =
    Returns
      (Some (Errorf "failed to get task: %w"
               (Errorf "failed to execute consume script: %w"
                  (Foreign "i/o timeout") []) []))
  /\ length (trace r) = 3%nat.
Proof.
  destruct (consume_claim_error nat (Mock.replying (inr "i/o timeout")) 0%nat
              (Plain.queue (-1)) "sha"
              [taskQueueKey (Plain.queue (-1));
               inProgressTaskKey (Plain.queue (-1))] ["5"] "i/o timeout")
    as (err & Hres & -> & _ & _ & now & Htr).
  { vm_compute. do 2 apply list_elem_of_further. apply list_elem_of_here. }
  split; [exact Hres |]. rewrite Htr. reflexivity.
Defined.

Lemma consume_invalid_reply_witness :
  let r := exec (Mock.replying (inl (RInt 7))) (consume (Plain.queue (-1)))
             0%nat in
  exists err : error,
    result r = Returns (Some err) /\ errors_Is err ErrInvalidTaskType = true.
Proof.
  destruct (consume_invalid_reply nat (Mock.replying (inl (RInt 7))) 0%nat
              (Plain.queue (-1)) "sha"
              [taskQueueKey (Plain.queue (-1));
               inProgressTaskKey (Plain.queue (-1))] ["5"] (RInt 7))
    as (err & Hres & His & _).
  { vm_compute. do 2 apply list_elem_of_further. apply list_elem_of_here. }
  { discriminate. }
  exists err. split; [exact Hres | exact His].
Defined.

Lemma consume_hands_decoded_task_witness :
  let r := exec (Mock.replying (inl (RString "1|0|0|hello")))
             (consume (Plain.queue (-1))) 0%nat in
  exists herr : outcome (option foreign),
    filter (fun c => is_ConsumeFunc c = true) (trace r)
    = [CConsumeFunc 1%N "hello" herr].
Proof.
  apply (consume_hands_decoded_task nat
           (Mock.replying (inl (RString "1|0|0|hello"))) 0%nat (Plain.queue (-1))
           "sha"
           [taskQueueKey (Plain.queue (-1));
            inProgressTaskKey (Plain.queue (-1))] ["5"] "1|0|0|hello"
           Sample.fresh).
  - vm_compute. do 2 apply list_elem_of_further. apply list_elem_of_here.
  - discriminate.
  - reflexivity.
Defined.

Lemma backoff_is_exponential_witness :
  exists (now : Time) (zerr : option foreign),
    trace (exec (Mock.replying (inl StatusOK))
             (produceRetry (Plain.queue (-1)) (lifetime Sample.fresh 3))
             0%nat) =
      [CNow now;
       CZAdd (taskQueueKey (Plain.queue (-1)))
         {| Score := float64 (time_Unix (now + 8 * time_Second));
            Member := {| ID := 1%N; Payload := "hello"; RetryCount := 4;
                         Wait := 8 * time_Second |} |} zerr].
Proof.
  apply (backoff_is_exponential nat (Mock.replying (inl StatusOK)) 0%nat
           (Plain.queue (-1)) Sample.fresh 3).
  - reflexivity.
  - reflexivity.
  - lia.
  - left. simpl. lia.
Defined.

Lemma reschedule_is_later_witness :
  exists (now : Time) (zerr : option foreign) (m : redis_Z string),
    trace (exec (Mock.replying (inl StatusOK))
             (produceRetry (Plain.queue 3) Sample.fresh) 0%nat) =
      [CNow now; CZAdd (taskQueueKey (Plain.queue 3)) m zerr]
    /\ Score m = float64 (time_Unix (time_Add now (wait Sample.fresh)))
    /\ time_Unix now + 1 <= time_Unix (time_Add now (wait Sample.fresh))
    /\ (Z.abs (time_Unix (time_Add now (wait Sample.fresh))) <= 2 ^ 53 ->
        time_Unix now + 1 <= Score m).
Proof.
  apply (reschedule_is_later nat (Mock.replying (inl StatusOK)) 0%nat
           (Plain.queue 3) Sample.fresh).
  - right. simpl. lia.
  - left. simpl. lia.
Defined.

Lemma NewTaskQueue_keys_apart_witness :
  let build := NewTaskQueue (fun o => o) "consume.lua" Mock.readFile Mock.scriptLoad in
  let other := {| QueueKey := "dummy-consumer"; Namespace := "simple";
                  StorageAddress := "localhost:6379"; WorkerID := "worker2";
                  MaxRetries := 3; OperationTimeout := time_Second |} in
  exists t1 t2 : TaskQueue,
    build Simple.options tt = (inl t1, tt)
    /\ build other tt = (inl t2, tt)
    /\ taskQueueKey t1 = taskQueueKey t2
    /\ (taskQueueKey t1 = inProgressTaskKey t2 -> False)
    /\ (inProgressTaskKey t1 = inProgressTaskKey t2 -> False).
Proof.
  intros build other. eexists _, _.
  split; [reflexivity |]. split; [reflexivity |]. split; [reflexivity |].
  destruct (NewTaskQueue_keys_apart (fun o => o) "consume.lua" Mock.readFile
              Mock.scriptLoad Simple.options other tt tt tt tt _ _
              eq_refl eq_refl eq_refl eq_refl) as (_ & Hne & Hinj).
  split; [exact Hne |].
  intros Heq. destruct (Hinj eq_refl eq_refl Heq) as (_ & Hw & _).
  discriminate Hw.
Defined.

Lemma NewTaskQueue_keys_collide_witness :
  let build := NewTaskQueue (fun o => o) "consume.lua" Mock.readFile Mock.scriptLoad in
  let other := {| QueueKey := "dummy-consumer";
                  Namespace := "simple:workers:worker1";
                  StorageAddress := "localhost:6379"; WorkerID := "worker2";
                  MaxRetries := 3; OperationTimeout := time_Second |} in
  exists t1 t2 : TaskQueue,
    build other tt = (inl t1, tt)
    /\ build Simple.options tt = (inl t2, tt)
    /\ taskQueueKey t1 = inProgressTaskKey t2.
Proof.
  intros build other. eexists _, _.
  split; [reflexivity |]. split; [reflexivity |].
  apply (NewTaskQueue_keys_collide (fun o => o) "consume.lua" Mock.readFile
           Mock.scriptLoad other Simple.options tt tt tt tt _ _
           eq_refl eq_refl eq_refl eq_refl).
Defined.

Lemma runProducer_numbers_witness :
  enqueued (trace (exec (Mock.refusing 40) (Simple.runProducer 10 (Plain.queue (-1)))
                     0%nat))
  = ["0"; "1"; "2"].
Proof.
  rewrite (runProducer_numbers nat (Mock.refusing 40) 0%nat (Plain.queue (-1)) 10).
  - vm_compute. reflexivity.
  - unfold max_int64. lia.
Defined.
